(** * The object header word (markWord) and the relocation of a BasicLock

    A shallow embedding of [markWord] (oops/markWord.hpp) and of
    [BasicLock::move_to] (runtime/basicLock.cpp).

    Machine integers are mathematical integers with the wrap-around of each
    C++ type written out: [uintptr_t] is a [Z] in [0, 2^BitsPerWord),
    [uint] a [Z] in [0, 2^32), [int] a [Z] in [-2^31, 2^31).  Pointers are
    their [uintptr_t] bit patterns.  A routine that contains [assert]
    returns in the [vm] monad: in a debug build a failed assertion is a
    fatal error, in a product build the assertion is compiled out.

    The first part of the file is the model, the second part its
    properties. *)

From Stdlib Require Import ZArith Lia Bool Btauto String List.
From coqutil Require Import Z.bitblast.
From stdpp Require Import base gmap.
Import ListNotations.
Local Open Scope Z_scope.

(** * Part I: the model *)

(** ** Build configuration and the outcome of a VM routine *)

Module VM.

(** What the sources leave to the build and to the command line:
    [_LP64] (a 64-bit VM, otherwise a 32-bit one), [ASSERT] (a debug build,
    where [assert] is compiled in) and the flag [UseBiasedLocking] of
    runtime/globals.hpp. *)
Class Platform : Type := {
  LP64 : bool;
  ASSERT : bool;
  UseBiasedLocking : bool
}.

(** A 64-bit debug build, a 64-bit product build and a 32-bit debug build,
    each run with biased locking enabled. *)
Definition debug64 : Platform :=
  {| LP64 := true; ASSERT := true; UseBiasedLocking := true |}.
Definition product64 : Platform :=
  {| LP64 := true; ASSERT := false; UseBiasedLocking := true |}.
Definition debug32 : Platform :=
  {| LP64 := false; ASSERT := true; UseBiasedLocking := true |}.

(** A 64-bit product build run with biased locking disabled. *)
Definition product64_no_bias : Platform :=
  {| LP64 := true; ASSERT := false; UseBiasedLocking := false |}.

Inductive vm (A : Type) : Type :=
| Ret (a : A)
| Fatal (msg : string).

Arguments Ret {A} a.
Arguments Fatal {A} msg.

Definition bind {A B : Type} (m : vm A) (k : A -> vm B) : vm B :=
  match m with
  | Ret a => k a
  | Fatal msg => Fatal msg
  end.

(** [assert(cond, msg)]. *)
Definition vmassert `{Platform} (cond : bool) (msg : string) : vm unit :=
  if ASSERT && negb cond then Fatal msg else Ret tt.

End VM.

Import VM.

(** ** Integer conversions of the C++ types *)

Module Ints.

Definition to_uint (z : Z) : Z := z mod 2 ^ 32.
Definition to_int (z : Z) : Z := (z + 2 ^ 31) mod 2 ^ 32 - 2 ^ 31.

(** [x << n] at type [int] and at type [uint]: the bit pattern shifted and
    kept to 32 bits, which is what the compilers HotSpot is built with do
    for a negative [int] too. *)
Definition int_shl (x n : Z) : Z := to_int (Z.shiftl x n).
Definition uint_shl (x n : Z) : Z := to_uint (Z.shiftl x n).

(** The values of type [uint] and of type [int]. *)
Definition uint_t (z : Z) : Prop := 0 <= z < 2 ^ 32.
Definition int_t (z : Z) : Prop := - 2 ^ 31 <= z < 2 ^ 31.

End Ints.

Import Ints.

(** ** markWord *)

Module MarkWord.

Local Notation "x <- m ;; k" := (bind m (fun x => k))
  (at level 100, m at next level, right associativity, only parsing).
Local Notation "m ;;; k" := (bind m (fun _ => k))
  (at level 100, right associativity, only parsing).

(** [class markWord { uintptr_t _value; }], built by [markWord(value)]. *)
Record markWord : Type := Mark { value : Z }.

Definition NULL : Z := 0.

Section WithPlatform.

Context {P : Platform}.

Definition BitsPerWord : Z := if LP64 then 64 else 32.

Definition to_uintptr (z : Z) : Z := z mod 2 ^ BitsPerWord.

(** The values of type [uintptr_t]. *)
Definition uintptr_t (z : Z) : Prop := 0 <= z < 2 ^ BitsPerWord.

(** [~x], [x << n] and [x >> n] at type [uintptr_t]. *)
Definition unot (x : Z) : Z := to_uintptr (Z.lnot x).
Definition shl (x n : Z) : Z := to_uintptr (Z.shiftl x n).
Definition shr (x n : Z) : Z := Z.shiftr x n.

(** Modelled from the spec: utilities/globalDefinitions.hpp is not among
    the sources.  [nth_bit(n)] is the word with only bit [n] set (zero
    when [n] is not below the word size), [right_n_bits(n)] the word with
    the [n] low bits set, and [mask_bits(x, m)] is [x & m]: the masks the
    spec's predicates test ("bias+lock mask", "masking off bias/age/epoch
    bits"). *)
Definition nth_bit (n : Z) : Z :=
  if n >=? BitsPerWord then 0 else Z.shiftl 1 n.
Definition right_n_bits (n : Z) : Z := to_uintptr (nth_bit n - 1).
Definition mask_bits (x m : Z) : Z := Z.land x m.

(** *** Constants *)

Definition age_bits : Z := 4.
Definition lock_bits : Z := 2.
Definition biased_lock_bits : Z := 1.
Definition max_hash_bits : Z :=
  BitsPerWord - age_bits - lock_bits - biased_lock_bits.
Definition hash_bits : Z :=
  if max_hash_bits >? 31 then 31 else max_hash_bits.
Definition unused_gap_bits : Z := if LP64 then 1 else 0.
Definition epoch_bits : Z := 2.

Definition lock_shift : Z := 0.
Definition biased_lock_shift : Z := lock_bits.
Definition age_shift : Z := lock_bits + biased_lock_bits.
Definition unused_gap_shift : Z := age_shift + age_bits.
Definition hash_shift : Z := unused_gap_shift + unused_gap_bits.
Definition epoch_shift : Z := hash_shift.

Definition lock_mask : Z := right_n_bits lock_bits.
Definition lock_mask_in_place : Z := shl lock_mask lock_shift.
Definition biased_lock_mask : Z :=
  right_n_bits (lock_bits + biased_lock_bits).
Definition biased_lock_mask_in_place : Z := shl biased_lock_mask lock_shift.
Definition biased_lock_bit_in_place : Z :=
  to_uintptr (int_shl 1 biased_lock_shift).
Definition age_mask : Z := right_n_bits age_bits.
Definition age_mask_in_place : Z := shl age_mask age_shift.
Definition epoch_mask : Z := right_n_bits epoch_bits.
Definition epoch_mask_in_place : Z := shl epoch_mask epoch_shift.

Definition hash_mask : Z := right_n_bits hash_bits.
Definition hash_mask_in_place : Z := shl hash_mask hash_shift.

Definition biased_lock_alignment : Z :=
  to_uintptr (int_shl 2 (epoch_shift + epoch_bits)).

Definition locked_value : Z := 0.
Definition unlocked_value : Z := 1.
Definition monitor_value : Z := 2.
Definition marked_value : Z := 3.
Definition biased_lock_pattern : Z := 5.

Definition no_hash : Z := 0.
Definition no_hash_in_place : Z := shl no_hash hash_shift.
Definition no_lock_in_place : Z := unlocked_value.

Definition max_age : Z := to_uint age_mask.
Definition max_bias_epoch : Z := to_int epoch_mask.

(** *** Construction *)

Definition from_pointer (ptr : Z) : markWord := Mark ptr.
Definition to_pointer (m : markWord) : Z := value m.
Definition zero : markWord := Mark 0.

(** *** Biased locking accessors *)

Definition has_bias_pattern (m : markWord) : bool :=
  mask_bits (value m) biased_lock_mask_in_place =? biased_lock_pattern.

Definition biased_locker (m : markWord) : vm Z :=
  vmassert (has_bias_pattern m) "should not call this otherwise" ;;;
  Ret (mask_bits (value m)
         (unot (Z.lor (Z.lor biased_lock_mask_in_place age_mask_in_place)
                  epoch_mask_in_place))).

(** [has_bias_pattern() && (biased_locker() == NULL)]: the right operand
    is evaluated only when the left one holds. *)
Definition is_biased_anonymously (m : markWord) : vm bool :=
  if has_bias_pattern m
  then t <- biased_locker m ;; Ret (t =? NULL)
  else Ret false.

Definition bias_epoch (m : markWord) : vm Z :=
  vmassert (has_bias_pattern m) "should not call this otherwise" ;;;
  Ret (to_int (shr (mask_bits (value m) epoch_mask_in_place) epoch_shift)).

Definition set_bias_epoch (m : markWord) (epoch : Z) : vm markWord :=
  vmassert (has_bias_pattern m) "should not call this otherwise" ;;;
  vmassert (Z.land (to_uintptr epoch) (unot epoch_mask) =? 0)
    "epoch overflow" ;;;
  Ret (Mark (Z.lor (mask_bits (value m) (unot epoch_mask_in_place))
               (to_uintptr (int_shl epoch epoch_shift)))).

Definition incr_bias_epoch (m : markWord) : vm markWord :=
  e <- bias_epoch m ;;
  set_bias_epoch m (to_int (Z.land (to_uintptr (to_int (1 + e))) epoch_mask)).

Definition biased_locking_prototype : markWord := Mark biased_lock_pattern.

(** *** Lock accessors *)

Definition is_locked (m : markWord) : bool :=
  negb (mask_bits (value m) lock_mask_in_place =? unlocked_value).
Definition is_unlocked (m : markWord) : bool :=
  mask_bits (value m) biased_lock_mask_in_place =? unlocked_value.
Definition is_marked (m : markWord) : bool :=
  mask_bits (value m) lock_mask_in_place =? marked_value.
Definition is_neutral (m : markWord) : bool :=
  mask_bits (value m) biased_lock_mask_in_place =? unlocked_value.

Definition is_being_inflated (m : markWord) : bool := value m =? 0.
Definition INFLATING : markWord := zero.

(** *** Routines of the synchronization code *)

Definition set_unlocked (m : markWord) : markWord :=
  Mark (Z.lor (value m) unlocked_value).
Definition has_locker (m : markWord) : bool :=
  Z.land (value m) lock_mask_in_place =? locked_value.
Definition locker (m : markWord) : vm Z :=
  vmassert (has_locker m) "check" ;;; Ret (value m).
Definition has_monitor (m : markWord) : bool :=
  negb (Z.land (value m) monitor_value =? 0).
Definition monitor (m : markWord) : vm Z :=
  vmassert (has_monitor m) "check" ;;;
  Ret (Z.lxor (value m) monitor_value).
Definition has_displaced_mark_helper (m : markWord) : bool :=
  Z.land (value m) unlocked_value =? 0.

Definition copy_set_hash (m : markWord) (hash : Z) : markWord :=
  let tmp := Z.land (value m) (unot hash_mask_in_place) in
  let tmp := Z.lor tmp (shl (Z.land (to_uintptr hash) hash_mask) hash_shift) in
  Mark tmp.

Definition unused_mark : markWord := Mark marked_value.

(** The three overloads of [encode], named after their parameter. *)
Definition encode_BasicLock (lock : Z) : markWord := from_pointer lock.

Definition encode_ObjectMonitor (monitor : Z) : markWord :=
  let tmp := monitor in
  Mark (Z.lor tmp monitor_value).

Definition encode_JavaThread (thread age bias_epoch : Z) : vm markWord :=
  let tmp := thread in
  vmassert
    (UseBiasedLocking &&
     (Z.land tmp (Z.lor (Z.lor epoch_mask_in_place age_mask_in_place)
                    biased_lock_mask_in_place) =? 0))
    "misaligned JavaThread pointer" ;;;
  vmassert (age <=? max_age) "age too large" ;;;
  vmassert (bias_epoch <=? max_bias_epoch) "bias epoch too large" ;;;
  Ret (Mark (Z.lor (Z.lor (Z.lor tmp (to_uintptr (int_shl bias_epoch epoch_shift)))
                      (uint_shl age age_shift))
               biased_lock_pattern)).

Definition clear_lock_bits (m : markWord) : markWord :=
  Mark (Z.land (value m) (unot lock_mask_in_place)).

(** *** Age and mark operations *)

Definition set_marked (m : markWord) : markWord :=
  Mark (Z.lor (Z.land (value m) (unot lock_mask_in_place)) marked_value).
Definition set_unmarked (m : markWord) : markWord :=
  Mark (Z.lor (Z.land (value m) (unot lock_mask_in_place)) unlocked_value).

Definition age (m : markWord) : Z :=
  to_uint (mask_bits (shr (value m) age_shift) age_mask).

Definition set_age (m : markWord) (v : Z) : vm markWord :=
  vmassert (Z.land v (unot age_mask) =? 0) "shouldn't overflow age field" ;;;
  Ret (Mark (Z.lor (Z.land (value m) (unot age_mask_in_place))
               (shl (Z.land v age_mask) age_shift))).

Definition incr_age (m : markWord) : vm markWord :=
  if age m =? max_age then Ret (Mark (value m))
  else set_age m (to_uint (age m + 1)).

(** *** Hash operations *)

Definition hash (m : markWord) : Z :=
  mask_bits (shr (value m) hash_shift) hash_mask.
Definition has_no_hash (m : markWord) : bool := hash m =? no_hash.

Definition prototype : markWord :=
  Mark (Z.lor no_hash_in_place no_lock_in_place).

Definition encode_pointer_as_mark (p : Z) : markWord :=
  set_marked (from_pointer p).

Definition decode_pointer (m : markWord) : Z :=
  if UseBiasedLocking && has_bias_pattern m then NULL
  else value (clear_lock_bits m).

(** *** The layout, bit by bit

    Bit [i] lies in the field of [bits] bits that starts at bit [shift]. *)
Definition in_field (shift bits i : Z) : Prop := shift <= i < shift + bits.

(** The thread field of a biased header is what is left of the word once
    the bias-and-lock, age and epoch fields are masked off: it is zero when
    every bit outside these three fields is. *)
Definition thread_field_zero (m : markWord) : Prop :=
  forall i : Z, 0 <= i ->
    ~ in_field lock_shift (lock_bits + biased_lock_bits) i ->
    ~ in_field age_shift age_bits i ->
    ~ in_field epoch_shift epoch_bits i ->
    Z.testbit (value m) i = false.

End WithPlatform.

End MarkWord.

(** ** BasicLock::move_to *)

Module BasicLock.

Import MarkWord.

Section Relocation.

Context {P : Platform}.

(** What the synchronizer owns besides the lock records: the object
    headers and the ObjectMonitors. *)
Variable Sync : Type.

(** The lock records ([BasicLock]s) on the thread stacks, by address, each
    with its [_displaced_header]; the synchronizer's state; and the objects
    handed to [ObjectSynchronizer::inflate_helper] so far, oldest first. *)
Record World : Type := {
  records : gmap Z markWord;
  sync : Sync;
  inflations : list Z
}.

(** A routine reads and writes the world; it has no outcome when it
    dereferences an address that holds no lock record. *)
Definition M (A : Type) : Type := World -> option (A * World).

Definition ret {A : Type} (a : A) : M A := fun w => Some (a, w).

Definition bindM {A B : Type} (m : M A) (k : A -> M B) : M B :=
  fun w => match m w with
           | Some (a, w') => k a w'
           | None => None
           end.

Local Notation "x <- m ;; k" := (bindM m (fun x => k))
  (at level 100, m at next level, right associativity, only parsing).
Local Notation "m ;;; k" := (bindM m (fun _ => k))
  (at level 100, right associativity, only parsing).

(** Modelled from the spec: runtime/basicLock.hpp is not among the sources.
    A lock record "holds a displaced copy of a HeaderWord";
    [displaced_header()] reads it and [set_displaced_header(h)] stores [h]
    in its place. *)
Definition displaced_header (this : Z) : M markWord :=
  fun w => match records w !! this with
           | Some h => Some (h, w)
           | None => None
           end.

Definition set_displaced_header (this : Z) (header : markWord) : M unit :=
  fun w => match records w !! this with
           | Some _ =>
               Some (tt, {| records := <[this := header]> (records w);
                            sync := sync w;
                            inflations := inflations w |})
           | None => None
           end.

(** Modelled from the spec: runtime/synchronizer.cpp is not among the
    sources.  Inflation "to a heavyweight Monitor" is the synchronizer's
    business: [inflate obj] is its effect on the synchronizer's state, which
    may depend on the lock records; as the comment in [move_to] has it, "the
    inflation will not update the displaced header". *)
Variable inflate : Z -> gmap Z markWord -> Sync -> Sync.

Definition inflate_helper (obj : Z) : M unit :=
  fun w => Some (tt, {| records := records w;
                        sync := inflate obj (records w) (sync w);
                        inflations := inflations w ++ [obj] |}).

Definition move_to (this : Z) (obj : Z) (dest : Z) : M unit :=
  h <- displaced_header this ;;
  (if is_neutral h then inflate_helper obj else ret tt) ;;;
  h' <- displaced_header this ;;
  set_displaced_header dest h'.

End Relocation.

Arguments records {Sync} _.
Arguments sync {Sync} _.
Arguments inflations {Sync} _.
Arguments move_to {P Sync} inflate this obj dest _.

(** A world to run [move_to] in, on a 64-bit debug build: two lock records,
    at 16 and at 32; the synchronizer keeps the object headers, and
    inflation installs a monitor in the header of the object. *)
Definition two_records : World (gmap Z markWord) :=
  {| records := <[16 := prototype (P := debug64)]> (<[32 := zero]> ∅);
     sync := <[100 := encode_BasicLock 16]> ∅;
     inflations := [] |}.

Definition install_monitor (obj : Z) (_ : gmap Z markWord)
    (headers : gmap Z markWord) : gmap Z markWord :=
  <[obj := encode_ObjectMonitor 4096]> headers.

End BasicLock.

(** ** The displaced mark behind a locked header *)

Module DisplacedMark.

Import MarkWord.

Local Notation "m ;;; k" := (bind m (fun _ => k))
  (at level 100, right associativity, only parsing).

(** Memory, byte by byte: the byte (a number below 256) at each address
    that is mapped. *)

(** The [n] bytes from address [ptr] on, when all of them are mapped. *)
Fixpoint read_bytes (mem : gmap Z Z) (ptr : Z) (n : nat) : option (list Z) :=
  match n with
  | O => Some []
  | S k =>
      match mem !! ptr, read_bytes mem (ptr + 1) k with
      | Some b, Some bs => Some (b :: bs)
      | _, _ => None
      end
  end.

(** The bytes [bs] stored from address [ptr] on, when all of these
    addresses are mapped. *)
Fixpoint write_bytes (mem : gmap Z Z) (ptr : Z) (bs : list Z) :
    option (gmap Z Z) :=
  match bs with
  | [] => Some mem
  | b :: bs' =>
      match mem !! ptr with
      | Some _ => write_bytes (<[ptr := b]> mem) (ptr + 1) bs'
      | None => None
      end
  end.

(** The [n] low bytes of [v], lowest first, and the number such bytes
    stand for. *)
Fixpoint le_bytes (n : nat) (v : Z) : list Z :=
  match n with
  | O => []
  | S k => v mod 256 :: le_bytes k (v / 256)
  end.

Fixpoint le_value (bs : list Z) : Z :=
  match bs with
  | [] => 0
  | b :: bs' => b + 256 * le_value bs'
  end.

(** [n] mapped bytes from [ptr] on, all zero. *)
Fixpoint zeroed (ptr : Z) (n : nat) : gmap Z Z :=
  match n with
  | O => ∅
  | S k => <[ptr := 0]> (zeroed (ptr + 1) k)
  end.

Section WithPlatform.

Context {P : Platform}.

(** The byte order of the machine: the low byte of a word at the highest
    address, or (when [false]) at the lowest. *)
Variable big_endian : bool.

(** A header word takes [BitsPerWord / 8] bytes of memory. *)
Definition BytesPerWord : Z := BitsPerWord / 8.

Definition word_to_bytes (v : Z) : list Z :=
  let bs := le_bytes (Z.to_nat BytesPerWord) v in
  if big_endian then rev bs else bs.

Definition word_of_bytes (bs : list Z) : Z :=
  le_value (if big_endian then rev bs else bs).

(** [*(markWord* )ptr] read, and [((markWord* )ptr)->_value] written: a
    load and a store of the [BytesPerWord] bytes from [ptr] on.  An access
    that touches an address that is not mapped has no outcome. *)
Definition load_mark (mem : gmap Z Z) (ptr : Z) : option markWord :=
  match read_bytes mem ptr (Z.to_nat BytesPerWord) with
  | Some bs => Some (Mark (word_of_bytes bs))
  | None => None
  end.

Definition store_mark (mem : gmap Z Z) (ptr : Z) (v : Z) : option (gmap Z Z) :=
  write_bytes mem ptr (word_to_bytes v).

Definition displaced_mark_helper (mem : gmap Z Z) (this : markWord) :
    vm (option markWord) :=
  vmassert (has_displaced_mark_helper this) "check" ;;;
  let ptr := Z.land (value this) (unot monitor_value) in
  Ret (load_mark mem ptr).

Definition set_displaced_mark_helper (mem : gmap Z Z) (this m : markWord) :
    vm (option (gmap Z Z)) :=
  vmassert (has_displaced_mark_helper this) "check" ;;;
  let ptr := Z.land (value this) (unot monitor_value) in
  Ret (store_mark mem ptr (value m)).

End WithPlatform.

End DisplacedMark.

(** * Part II: properties *)

(** ** markWord *)

Module MarkWordFacts.

Import MarkWord.

Section Facts.

Context {P : Platform}.

(** *** The constants, platform by platform *)

Lemma platform_cases :
  (BitsPerWord = 64 /\ hash_shift = 8 /\ hash_bits = 31) \/
  (BitsPerWord = 32 /\ hash_shift = 7 /\ hash_bits = 25).
Proof. destruct P as [[] ? ?]; [left | right]; repeat split. Qed.

Lemma lock_mask_in_place_ones : lock_mask_in_place = Z.ones 2.
Proof. destruct P as [[] ? ?]; reflexivity. Qed.

Lemma biased_lock_mask_in_place_ones : biased_lock_mask_in_place = Z.ones 3.
Proof. destruct P as [[] ? ?]; reflexivity. Qed.

Lemma age_mask_ones : age_mask = Z.ones 4.
Proof. destruct P as [[] ? ?]; reflexivity. Qed.

Lemma age_mask_in_place_ones : age_mask_in_place = Z.shiftl (Z.ones 4) 3.
Proof. destruct P as [[] ? ?]; reflexivity. Qed.

Lemma epoch_mask_ones : epoch_mask = Z.ones 2.
Proof. destruct P as [[] ? ?]; reflexivity. Qed.

Lemma epoch_mask_in_place_ones :
  epoch_mask_in_place = Z.shiftl (Z.ones 2) hash_shift.
Proof. destruct P as [[] ? ?]; reflexivity. Qed.

Lemma hash_mask_ones : hash_mask = Z.ones hash_bits.
Proof. destruct P as [[] ? ?]; reflexivity. Qed.

Lemma hash_mask_in_place_ones :
  hash_mask_in_place = Z.shiftl (Z.ones hash_bits) hash_shift.
Proof. destruct P as [[] ? ?]; reflexivity. Qed.

Lemma max_age_15 : max_age = 15.
Proof. destruct P as [[] ? ?]; reflexivity. Qed.

Lemma max_bias_epoch_3 : max_bias_epoch = 3.
Proof. destruct P as [[] ? ?]; reflexivity. Qed.

(** The tag values, written with [Z.ones] so that their bits can be read
    off at a symbolic index. *)
Lemma unlocked_value_ones : unlocked_value = Z.ones 1.
Proof. reflexivity. Qed.

Lemma monitor_value_ones : monitor_value = Z.shiftl (Z.ones 1) 1.
Proof. reflexivity. Qed.

Lemma marked_value_ones : marked_value = Z.ones 2.
Proof. reflexivity. Qed.

Lemma biased_lock_pattern_ones :
  biased_lock_pattern = Z.lor (Z.shiftl (Z.ones 1) 2) (Z.ones 1).
Proof. reflexivity. Qed.

(** *** Proof steps shared by the bit-level arguments *)

Ltac word_ops :=
  unfold mask_bits, unot, shl, shr, to_uintptr, to_uint, uint_shl,
    epoch_shift, age_shift, age_bits, lock_bits, biased_lock_bits,
    epoch_bits, lock_shift, uintptr_t, in_field in *.

Ltac masks :=
  rewrite ?lock_mask_in_place_ones, ?biased_lock_mask_in_place_ones,
    ?age_mask_in_place_ones, ?age_mask_ones, ?epoch_mask_in_place_ones,
    ?epoch_mask_ones, ?hash_mask_in_place_ones, ?hash_mask_ones,
    ?unlocked_value_ones, ?monitor_value_ones, ?marked_value_ones,
    ?biased_lock_pattern_ones in *.

Ltac on_platform :=
  let Hw := fresh "Hw" in
  let Hs := fresh "Hs" in
  let Hb := fresh "Hb" in
  destruct platform_cases as [(Hw & Hs & Hb) | (Hw & Hs & Hb)];
  rewrite ?Hw, ?Hs, ?Hb in *.

(** [bounded v n]: [v] is below [2^n], so it is its own [n] low bits. *)
Ltac bounded v n := rewrite <- (Z.mod_small v (2 ^ n)) by lia.

(** A bit read at a negative index is clear. *)
Ltac negative_bits :=
  repeat match goal with
         | |- context [Z.testbit ?x ?j] =>
             rewrite (Z.testbit_neg_r x j) by lia
         end;
  try btauto.

Ltac bits := word_ops; masks; on_platform; Z.bitblast; negative_bits.

Lemma vmassert_true (msg : string) : vmassert true msg = Ret tt.
Proof. unfold vmassert. now rewrite andb_false_r. Qed.

Lemma to_int_small (z : Z) : int_t z -> to_int z = z.
Proof. unfold int_t, to_int. intros H. rewrite Z.mod_small; lia. Qed.

Lemma to_uint_small (z : Z) : uint_t z -> to_uint z = z.
Proof. unfold uint_t, to_uint. intros H. now apply Z.mod_small. Qed.

(** A word none of whose bits under the mask [m] is set is unchanged by
    clearing them. *)
Lemma land_lnot_absorb (x m : Z) : Z.land x m = 0 -> Z.land x (Z.lnot m) = x.
Proof.
  intros H. apply Z.bits_inj'. intros i Hi.
  assert (Hb : Z.testbit (Z.land x m) i = false) by (rewrite H; apply Z.bits_0).
  rewrite Z.land_spec in Hb. rewrite Z.land_spec, Z.lnot_spec by exact Hi.
  destruct (Z.testbit x i), (Z.testbit m i); simpl in *; congruence.
Qed.

Lemma markWord_eta (h : markWord) : Mark (value h) = h.
Proof. now destruct h. Qed.

(** *** Age *)

Lemma age_range (h : markWord) : 0 <= age h <= 15.
Proof.
  unfold age, mask_bits. rewrite age_mask_ones, Z.land_ones by lia.
  unfold to_uint.
  pose proof (Z.mod_pos_bound (shr (value h) age_shift) (2 ^ 4) ltac:(lia)).
  rewrite Z.mod_small; lia.
Qed.

Lemma set_age_passes (h : markWord) (v : Z) :
  0 <= v <= 15 ->
  set_age h v =
  Ret (Mark (Z.lor (Z.land (value h) (unot age_mask_in_place))
               (shl (Z.land v age_mask) age_shift))).
Proof.
  intros Hv. unfold set_age.
  assert (Hok : (Z.land v (unot age_mask) =? 0) = true).
  { apply Z.eqb_eq. bounded v 4. bits. }
  now rewrite Hok, vmassert_true.
Qed.

Lemma age_set_age (h h' : markWord) (v : Z) :
  0 <= v <= 15 -> set_age h v = Ret h' -> age h' = v.
Proof.
  intros Hv. rewrite set_age_passes by exact Hv. intros [= <-].
  unfold age. simpl value. bounded v 4. bits.
Qed.

(** C6.  For every header word, [is_locked] holds if and only if the two
    low bits of the word differ from the unlocked tag. *)
Theorem is_locked_iff_low_bits (h : markWord) :
  is_locked h = true <-> value h mod 2 ^ lock_bits <> unlocked_value.
Proof.
  unfold is_locked, mask_bits.
  rewrite negb_true_iff, Z.eqb_neq, lock_mask_in_place_ones.
  rewrite Z.land_ones by lia.
  reflexivity.
Qed.

(** C8.  For a header word [h] and an age [v] from 0 to 15, [set_age]
    passes its assertion and yields a word whose age is [v] and whose bits
    outside the age field are those of [h]: the lock tag and the bias bit
    below the field, the hash or the bias overlay above it. *)
Theorem set_age_frame (h : markWord) (v : Z) :
  uintptr_t (value h) -> 0 <= v <= 15 ->
  exists h' : markWord,
    set_age h v = Ret h' /\
    age h' = v /\
    (forall i : Z, 0 <= i -> ~ in_field age_shift age_bits i ->
       Z.testbit (value h') i = Z.testbit (value h) i) /\
    Z.land (value h') biased_lock_mask_in_place =
      Z.land (value h) biased_lock_mask_in_place /\
    shr (value h') unused_gap_shift = shr (value h) unused_gap_shift /\
    hash h' = hash h.
Proof.
  intros Hh Hv.
  assert (Hbits : forall h' i, set_age h v = Ret h' -> 0 <= i ->
            ~ in_field age_shift age_bits i ->
            Z.testbit (value h') i = Z.testbit (value h) i).
  { intros h' i. rewrite set_age_passes by exact Hv. intros [= <-] Hi Hout.
    simpl value. revert Hh Hout. word_ops; masks; on_platform; intros Hh Hout.
    - bounded (value h) 64. Z.bitblast_core.
    - bounded (value h) 32. Z.bitblast_core. }
  destruct (set_age h v) as [h' | msg] eqn:E;
    [| rewrite set_age_passes in E by exact Hv; discriminate].
  exists h'. split; [reflexivity |]. split; [now apply (age_set_age h) |].
  split; [intros i Hi Hout; now apply Hbits |].
  repeat split.
  - apply Z.bits_inj'. intros i Hi.
    rewrite biased_lock_mask_in_place_ones, !Z.land_spec.
    destruct (Z.ltb_spec i 3) as [Hlt | Hge].
    + rewrite (Hbits h' i); [reflexivity | reflexivity | exact Hi |].
      unfold in_field, age_shift, lock_bits, biased_lock_bits. lia.
    + rewrite Z.testbit_ones_nonneg by lia.
      replace (i <? 3) with false by (symmetry; apply Z.ltb_ge; lia).
      now rewrite !andb_false_r.
  - unfold shr. apply Z.bits_inj'. intros i Hi.
    rewrite !Z.shiftr_spec by exact Hi.
    apply Hbits; [reflexivity | |];
      unfold in_field, unused_gap_shift, age_shift, age_bits, lock_bits,
        biased_lock_bits; lia.
  - unfold hash, mask_bits, shr. f_equal. apply Z.bits_inj'. intros i Hi.
    rewrite !Z.shiftr_spec by exact Hi.
    apply Hbits; [reflexivity | |];
      unfold in_field, age_shift, age_bits, lock_bits, biased_lock_bits;
      destruct platform_cases as [(_ & -> & _) | (_ & -> & _)]; lia.
Qed.

(** C7.  [incr_age] saturates: on a header whose age is the maximum, 15, it
    returns the header unchanged; on a header of a smaller age it returns a
    header whose age is one greater. *)
Theorem incr_age_saturates (h : markWord) :
  max_age = 15 /\
  (age h = max_age -> incr_age h = Ret h) /\
  (age h < max_age ->
   exists h' : markWord, incr_age h = Ret h' /\ age h' = age h + 1).
Proof.
  pose proof (age_range h) as Hr.
  split; [exact max_age_15 |]. unfold incr_age. rewrite max_age_15. split.
  - intros ->. simpl. now rewrite markWord_eta.
  - intros Hlt.
    replace (age h =? 15) with false by (symmetry; apply Z.eqb_neq; lia).
    rewrite to_uint_small by (unfold uint_t; lia).
    destruct (set_age h (age h + 1)) as [h' | msg] eqn:E.
    + exists h'. split; [reflexivity |].
      apply (age_set_age h); [lia | exact E].
    + rewrite set_age_passes in E by lia. discriminate.
Qed.

(** *** Lock, mark and monitor tags *)

Lemma low_bits_land (v n : Z) : 0 <= n -> Z.land v (Z.ones n) = v mod 2 ^ n.
Proof. intros Hn. now apply Z.land_ones. Qed.

Lemma has_bias_pattern_low_bits (h : markWord) :
  has_bias_pattern h = true <-> value h mod 2 ^ 3 = 5.
Proof.
  unfold has_bias_pattern, mask_bits.
  rewrite Z.eqb_eq, biased_lock_mask_in_place_ones, low_bits_land by lia.
  reflexivity.
Qed.

Lemma is_neutral_low_bits (h : markWord) :
  is_neutral h = true <-> value h mod 2 ^ 3 = 1.
Proof.
  unfold is_neutral, mask_bits.
  rewrite Z.eqb_eq, biased_lock_mask_in_place_ones, low_bits_land by lia.
  reflexivity.
Qed.

Lemma has_monitor_bit (h : markWord) :
  has_monitor h = Z.testbit (value h) 1.
Proof.
  unfold has_monitor. rewrite monitor_value_ones.
  destruct (Z.testbit (value h) 1) eqn:Hb.
  - apply negb_true_iff, Z.eqb_neq. intros H0.
    assert (Hc : Z.testbit (Z.land (value h) (Z.shiftl (Z.ones 1) 1)) 1 = false)
      by (rewrite H0; apply Z.bits_0).
    rewrite Z.land_spec, Hb in Hc. discriminate.
  - apply negb_false_iff, Z.eqb_eq. Z.bitblast.
    replace i with 1 by lia. now rewrite Hb.
Qed.

Lemma low_bits_marked_bit (v : Z) : v mod 2 ^ 2 = 3 -> Z.testbit v 1 = true.
Proof.
  intros H. rewrite <- (Z.mod_pow2_bits_low v 2 1) by lia. now rewrite H.
Qed.

(** C3.  [is_unlocked] and [is_neutral] are the same predicate: each holds
    exactly when the three low bits of the word, the bias bit and the lock
    tag, are the unlocked tag value; so a word that is biased anonymously is
    neither unlocked nor neutral. *)
Theorem is_unlocked_is_neutral (h : markWord) :
  is_unlocked h = is_neutral h /\
  (is_unlocked h = true <->
   value h mod 2 ^ (lock_bits + biased_lock_bits) = unlocked_value) /\
  (is_neutral h = true <->
   value h mod 2 ^ (lock_bits + biased_lock_bits) = unlocked_value) /\
  (is_biased_anonymously h = Ret true ->
   is_unlocked h = false /\ is_neutral h = false).
Proof.
  assert (Hsame : is_unlocked h = is_neutral h) by reflexivity.
  split; [exact Hsame |]. rewrite Hsame.
  split; [apply is_neutral_low_bits |]. split; [apply is_neutral_low_bits |].
  unfold is_biased_anonymously.
  destruct (has_bias_pattern h) eqn:Hb; [| discriminate]. intros _.
  apply has_bias_pattern_low_bits in Hb.
  assert (Hn : is_neutral h = false).
  { destruct (is_neutral h) eqn:Hn; [| reflexivity].
    apply is_neutral_low_bits in Hn. congruence. }
  now split.
Qed.

(** C10.  A header word whose two low bits are the marked tag, 3, satisfies
    [has_monitor] as well as [is_marked]; every result of [set_marked] is
    such a word. *)
Theorem marked_has_monitor (h : markWord) :
  (value h mod 2 ^ lock_bits = marked_value ->
   is_marked h = true /\ has_monitor h = true) /\
  value (set_marked h) mod 2 ^ lock_bits = marked_value /\
  is_marked (set_marked h) = true /\
  has_monitor (set_marked h) = true.
Proof.
  assert (Hm : forall m : markWord,
            value m mod 2 ^ lock_bits = marked_value ->
            is_marked m = true /\ has_monitor m = true).
  { intros m Hlow. split.
    - unfold is_marked, mask_bits.
      rewrite lock_mask_in_place_ones, low_bits_land by lia.
      now apply Z.eqb_eq.
    - rewrite has_monitor_bit. now apply low_bits_marked_bit. }
  assert (Hs : value (set_marked h) mod 2 ^ lock_bits = marked_value).
  { unfold set_marked. simpl value. unfold lock_bits.
    rewrite <- low_bits_land by lia. bits. }
  split; [apply Hm |]. split; [exact Hs |]. now apply Hm.
Qed.

(** C5.  For a monitor pointer whose two low bits are zero,
    [encode(monitor)] is the pointer combined with the monitor tag, 2, by
    exclusive or; the header satisfies [has_monitor] and [monitor()] gives
    the pointer back. *)
Theorem encode_monitor_round_trip (p : Z) :
  p mod 2 ^ lock_bits = 0 ->
  value (encode_ObjectMonitor p) = Z.lxor p monitor_value /\
  has_monitor (encode_ObjectMonitor p) = true /\
  monitor (encode_ObjectMonitor p) = Ret p.
Proof.
  intros Hlow. unfold lock_bits in Hlow.
  rewrite <- low_bits_land in Hlow by lia.
  apply land_lnot_absorb in Hlow.
  assert (Hx : Z.lor p monitor_value = Z.lxor p monitor_value).
  { rewrite <- Hlow. bits. }
  assert (Hh : has_monitor (encode_ObjectMonitor p) = true).
  { rewrite has_monitor_bit. unfold encode_ObjectMonitor. simpl value.
    rewrite Z.lor_spec. apply orb_true_r. }
  split; [exact Hx |]. split; [exact Hh |].
  unfold monitor. rewrite Hh, vmassert_true. simpl bind. f_equal.
  unfold encode_ObjectMonitor. simpl value. rewrite Hx, Z.lxor_assoc.
  now rewrite Z.lxor_nilpotent, Z.lxor_0_r.
Qed.

(** *** Hash *)

(** C9.  [copy_set_hash] writes the masked hash value over the whole hash
    field and leaves every other bit of the header as it was, the lock tag,
    the bias bit and the age among them; [hash()] of the result is the
    masked hash value.  This holds for every header word, the unlocked
    words without bias included. *)
Theorem copy_set_hash_frame (h : markWord) (x : Z) :
  uintptr_t (value h) ->
  hash (copy_set_hash h x) = Z.land (to_uintptr x) hash_mask /\
  hash (copy_set_hash h x) = x mod 2 ^ hash_bits /\
  (forall i : Z, 0 <= i -> ~ in_field hash_shift hash_bits i ->
     Z.testbit (value (copy_set_hash h x)) i = Z.testbit (value h) i) /\
  Z.land (value (copy_set_hash h x)) biased_lock_mask_in_place =
    Z.land (value h) biased_lock_mask_in_place /\
  age (copy_set_hash h x) = age h.
Proof.
  intros Hh.
  assert (Hbits : forall i : Z, 0 <= i -> ~ in_field hash_shift hash_bits i ->
            Z.testbit (value (copy_set_hash h x)) i = Z.testbit (value h) i).
  { intros i Hi Hout. unfold copy_set_hash. simpl value. revert Hh Hout.
    word_ops; masks; on_platform; intros Hh Hout.
    - bounded (value h) 64. Z.bitblast_core.
    - bounded (value h) 32. Z.bitblast_core. }
  assert (Hhash : hash (copy_set_hash h x) = Z.land (to_uintptr x) hash_mask).
  { unfold hash, copy_set_hash. simpl value. bits. }
  split; [exact Hhash |]. split; [| split; [exact Hbits | split]].
  - rewrite Hhash. word_ops. masks. on_platform.
    + rewrite low_bits_land by lia. Z.bitblast.
    + rewrite low_bits_land by lia. Z.bitblast.
  - apply Z.bits_inj'. intros i Hi.
    rewrite biased_lock_mask_in_place_ones, !Z.land_spec.
    destruct (Z.ltb_spec i 3) as [Hlt | Hge].
    + rewrite Hbits; [reflexivity | exact Hi |].
      unfold in_field. destruct platform_cases as [(_ & -> & _) | (_ & -> & _)]; lia.
    + rewrite Z.testbit_ones_nonneg by lia.
      replace (i <? 3) with false by (symmetry; apply Z.ltb_ge; lia).
      now rewrite !andb_false_r.
  - unfold age. f_equal. unfold mask_bits, shr. rewrite age_mask_ones.
    apply Z.bits_inj'. intros i Hi.
    rewrite !Z.land_spec, !Z.shiftr_spec by exact Hi.
    destruct (Z.ltb_spec i 4) as [Hlt | Hge].
    + rewrite Hbits; [reflexivity | unfold age_shift, lock_bits, biased_lock_bits; lia |].
      unfold in_field, age_shift, lock_bits, biased_lock_bits.
      destruct platform_cases as [(_ & -> & _) | (_ & -> & _)]; lia.
    + rewrite Z.testbit_ones_nonneg by lia.
      replace (i <? 4) with false by (symmetry; apply Z.ltb_ge; lia).
      now rewrite !andb_false_r.
Qed.

(** *** Biased headers *)

Lemma biased_locker_passes (h : markWord) :
  has_bias_pattern h = true ->
  biased_locker h =
  Ret (mask_bits (value h)
         (unot (Z.lor (Z.lor biased_lock_mask_in_place age_mask_in_place)
                  epoch_mask_in_place))).
Proof. intros Hb. unfold biased_locker. now rewrite Hb, vmassert_true. Qed.

(** C2, amended.  On a header word with the bias pattern whose thread field
    is zero (every bit outside the bias-and-lock, age and epoch fields, which
    is what [biased_locker] extracts), [is_biased_anonymously] returns true,
    and [biased_locker] passes its assertion and returns the null pointer:
    the assertion only asks for the bias pattern, and
    [is_biased_anonymously] itself compares the result with [NULL]. *)
Theorem anonymous_bias_null_locker (h : markWord) :
  has_bias_pattern h = true -> thread_field_zero h ->
  is_biased_anonymously h = Ret true /\ biased_locker h = Ret NULL.
Proof.
  intros Hb Hz.
  assert (Hl : biased_locker h = Ret NULL).
  { rewrite biased_locker_passes by exact Hb. f_equal. unfold NULL.
    apply Z.bits_inj'. intros i Hi. rewrite Z.bits_0. specialize (Hz i Hi).
    revert Hz. word_ops; masks; on_platform; intros Hz;
      Z.bitblast_core; rewrite Hz by lia; reflexivity. }
  split; [| exact Hl].
  unfold is_biased_anonymously. now rewrite Hb, Hl.
Qed.

Lemma shifted_epoch (e : Z) :
  0 <= e <= 3 -> to_uintptr (int_shl e epoch_shift) = Z.shiftl e hash_shift.
Proof.
  intros He. unfold int_shl, epoch_shift, to_uintptr.
  rewrite Z.shiftl_mul_pow2
    by (destruct platform_cases as [(_ & -> & _) | (_ & -> & _)]; lia).
  on_platform.
  - rewrite to_int_small by (unfold int_t; lia). apply Z.mod_small. lia.
  - rewrite to_int_small by (unfold int_t; lia). apply Z.mod_small. lia.
Qed.

Lemma shifted_age (a : Z) :
  0 <= a <= 15 -> uint_shl a age_shift = Z.shiftl a 3.
Proof.
  intros Ha. unfold uint_shl, age_shift, lock_bits, biased_lock_bits.
  change (2 + 1) with 3. rewrite Z.shiftl_mul_pow2 by lia.
  apply to_uint_small. unfold uint_t. lia.
Qed.

Lemma encode_JavaThread_passes (t a e : Z) :
  UseBiasedLocking = true ->
  Z.land t (Z.lor (Z.lor epoch_mask_in_place age_mask_in_place)
              biased_lock_mask_in_place) = 0 ->
  0 <= a <= 15 -> 0 <= e <= 3 ->
  encode_JavaThread t a e =
  Ret (Mark (Z.lor (Z.lor (Z.lor t (Z.shiftl e hash_shift)) (Z.shiftl a 3))
               biased_lock_pattern)).
Proof.
  intros Hu Hal Ha He. unfold encode_JavaThread.
  rewrite Hu, Hal, max_age_15, max_bias_epoch_3. simpl andb.
  replace (a <=? 15) with true by (symmetry; apply Z.leb_le; lia).
  replace (e <=? 3) with true by (symmetry; apply Z.leb_le; lia).
  rewrite !vmassert_true. simpl bind.
  now rewrite shifted_epoch, shifted_age.
Qed.

Lemma encode_JavaThread_outcome (t a e : Z) :
  Z.land t (Z.lor (Z.lor epoch_mask_in_place age_mask_in_place)
              biased_lock_mask_in_place) = 0 ->
  0 <= a <= 15 -> 0 <= e <= 3 ->
  encode_JavaThread t a e =
  if ASSERT && negb UseBiasedLocking
  then Fatal "misaligned JavaThread pointer"
  else Ret (Mark (Z.lor (Z.lor (Z.lor t (Z.shiftl e hash_shift))
                           (Z.shiftl a 3)) biased_lock_pattern)).
Proof.
  intros Hal Ha He. unfold encode_JavaThread, vmassert.
  rewrite Hal, max_age_15, max_bias_epoch_3.
  replace (a <=? 15) with true by (symmetry; apply Z.leb_le; lia).
  replace (e <=? 3) with true by (symmetry; apply Z.leb_le; lia).
  rewrite <- (shifted_epoch e He), <- (shifted_age a Ha).
  destruct ASSERT, UseBiasedLocking; reflexivity.
Qed.

(** C1.  For a thread pointer whose bits under the bias-and-lock, age and
    epoch masks are zero, an age from 0 to 15 and an epoch from 0 to 3 (the
    values of the epoch field), the header that [encode(thread, age, epoch)]
    produces has the bias pattern, and [biased_locker], [age] and
    [bias_epoch] give back the thread pointer, the age and the epoch.
    [encode] produces this header in every product build and in every debug
    build run with biased locking; a debug build run without it produces no
    header: the first assertion of [encode] tests the flag too. *)
Theorem encode_thread_round_trip (t a e : Z) :
  uintptr_t t ->
  Z.land t (Z.lor (Z.lor epoch_mask_in_place age_mask_in_place)
              biased_lock_mask_in_place) = 0 ->
  0 <= a <= 15 -> 0 <= e <= 3 ->
  exists h : markWord,
    (ASSERT = false \/ UseBiasedLocking = true ->
     encode_JavaThread t a e = Ret h) /\
    (ASSERT = true -> UseBiasedLocking = false ->
     encode_JavaThread t a e = Fatal "misaligned JavaThread pointer") /\
    has_bias_pattern h = true /\
    biased_locker h = Ret t /\
    age h = a /\
    bias_epoch h = Ret e.
Proof.
  intros Ht Hal Ha He.
  rewrite (encode_JavaThread_outcome t a e Hal Ha He).
  eexists. split; [| split].
  { intros [-> | ->]; [reflexivity |]. rewrite andb_false_r. reflexivity. }
  { intros -> ->. reflexivity. }
  pose proof (land_lnot_absorb _ _ Hal) as Habs.
  assert (Hb : has_bias_pattern
                 (Mark (Z.lor (Z.lor (Z.lor t (Z.shiftl e hash_shift))
                                 (Z.shiftl a 3)) biased_lock_pattern)) = true).
  { unfold has_bias_pattern. apply Z.eqb_eq. simpl value.
    rewrite <- Habs. clear Habs Hal. bounded a 4. bounded e 2. bits. }
  split; [exact Hb |]. split; [| split].
  - rewrite biased_locker_passes by exact Hb. f_equal. simpl value.
    rewrite <- Habs. clear Habs Hal. revert Ht.
    bounded a 4. bounded e 2. word_ops; masks; on_platform; intros Ht.
    + bounded t 64. Z.bitblast; negative_bits.
    + bounded t 32. Z.bitblast; negative_bits.
  - unfold age. simpl value.
    rewrite <- Habs. clear Habs Hal. bounded a 4. bounded e 2. bits.
  - unfold bias_epoch. rewrite Hb, vmassert_true. simpl bind. f_equal.
    simpl value.
    assert (Hx : shr (mask_bits
                        (Z.lor (Z.lor (Z.lor t (Z.shiftl e hash_shift))
                                  (Z.shiftl a 3)) biased_lock_pattern)
                        epoch_mask_in_place) epoch_shift = e).
    { rewrite <- Habs. clear Habs Hal. bounded a 4. bounded e 2. bits. }
    rewrite Hx. apply to_int_small. unfold int_t. lia.
Qed.

End Facts.

(** *** The theorems at concrete words, on a 64-bit debug build *)

Section OnDebug64.

#[local] Existing Instance debug64.

Ltac in_uintptr_t :=
  unfold uintptr_t; vm_compute; split; [intros Hc; discriminate Hc | reflexivity].

Example layout_64 :
  (lock_mask_in_place, biased_lock_mask_in_place, age_mask_in_place,
   epoch_mask_in_place, hash_mask_in_place) =
    (3, 7, 120, 768, 549755813632) /\
  (hash_shift, hash_bits, biased_lock_alignment, max_age, max_bias_epoch) =
    (8, 31, 2048, 15, 3) /\
  prototype = Mark 1.
Proof. repeat split. Qed.

Example layout_32 :
  (lock_mask_in_place (P := debug32), biased_lock_mask_in_place (P := debug32),
   age_mask_in_place (P := debug32), epoch_mask_in_place (P := debug32),
   hash_mask_in_place (P := debug32)) =
    (3, 7, 120, 384, 4294967168) /\
  (hash_shift (P := debug32), hash_bits (P := debug32),
   biased_lock_alignment (P := debug32), max_age (P := debug32),
   max_bias_epoch (P := debug32)) =
    (7, 25, 1024, 15, 3) /\
  prototype (P := debug32) = Mark 1.
Proof. repeat split. Qed.

Example encode_thread_4096_7_2 :
  encode_JavaThread 4096 7 2 = Ret (Mark 4669) /\
  encode_JavaThread (P := debug32) 4096 7 2 = Ret (Mark 4413).
Proof. split; reflexivity. Qed.

Example set_age_16_overflows :
  set_age (Mark 541) 16 = Fatal "shouldn't overflow age field" /\
  set_age (P := product64) (Mark 541) 16 = Ret (Mark 517).
Proof. split; reflexivity. Qed.

Example incr_age_at_15_and_below :
  incr_age (Mark 125) = Ret (Mark 125) /\ incr_age (Mark 541) = Ret (Mark 549).
Proof. split; reflexivity. Qed.

Example hash_of_minus_one :
  hash (copy_set_hash prototype (-1)) = 2147483647 /\
  hash (P := debug32) (copy_set_hash (P := debug32) prototype (-1)) = 33554431.
Proof. split; reflexivity. Qed.

Example biased_locker_without_pattern :
  biased_locker (Mark 1) = Fatal "should not call this otherwise" /\
  biased_locker (P := product64) (Mark 1) = Ret 0.
Proof. split; reflexivity. Qed.

(** On a 64-bit VM the unused bit between the age and the epoch is among
    the bits [biased_locker] returns. *)
Example gap_bit_counts_as_thread :
  has_bias_pattern (Mark 133) = true /\
  biased_locker (Mark 133) = Ret 128 /\
  is_biased_anonymously (Mark 133) = Ret false.
Proof. repeat split. Qed.

Lemma encode_thread_round_trip_witness :
  (exists h : markWord,
     encode_JavaThread 4096 7 2 = Ret h /\
     has_bias_pattern h = true /\
     biased_locker h = Ret 4096 /\
     age h = 7 /\
     bias_epoch h = Ret 2) /\
  (exists h : markWord,
     encode_JavaThread (P := product64_no_bias) 4096 7 2 = Ret h /\
     has_bias_pattern (P := product64_no_bias) h = true /\
     biased_locker (P := product64_no_bias) h = Ret 4096 /\
     age (P := product64_no_bias) h = 7 /\
     bias_epoch (P := product64_no_bias) h = Ret 2).
Proof.
  split.
  - destruct (encode_thread_round_trip 4096 7 2)
      as (h & Hret & _ & Hrest);
      [in_uintptr_t | reflexivity | lia | lia |].
    exists h. split; [apply Hret; right; reflexivity | exact Hrest].
  - destruct (encode_thread_round_trip (P := product64_no_bias) 4096 7 2)
      as (h & Hret & _ & Hrest);
      [in_uintptr_t | reflexivity | lia | lia |].
    exists h. split; [apply Hret; left; reflexivity | exact Hrest].
Defined.

(** Below the epoch field's values: -1 passes the assertion
    [bias_epoch <= max_bias_epoch] of [encode], which compares signed
    integers, and the header then decodes to the epoch 3 and to a thread
    pointer that is not the one encoded. *)
Lemma encode_thread_negative_epoch :
  Z.land 0 (Z.lor (Z.lor epoch_mask_in_place age_mask_in_place)
              biased_lock_mask_in_place) = 0 /\
  0 <= 15 /\ -1 <= 3 /\
  encode_JavaThread 0 0 (-1) = Ret (Mark 18446744073709551365) /\
  has_bias_pattern (Mark 18446744073709551365) = true /\
  bias_epoch (Mark 18446744073709551365) = Ret 3 /\
  bias_epoch (Mark 18446744073709551365) <> Ret (-1) /\
  biased_locker (Mark 18446744073709551365) = Ret 18446744073709550592 /\
  biased_locker (Mark 18446744073709551365) <> Ret 0.
Proof.
  repeat split; try reflexivity; try lia; vm_compute; discriminate.
Qed.

Lemma thread_field_zero_541 : thread_field_zero (Mark 541).
Proof.
  intros i Hi Hlock Hage Hepoch.
  cbv [in_field lock_shift lock_bits biased_lock_bits age_shift age_bits
         epoch_shift hash_shift unused_gap_shift unused_gap_bits epoch_bits
         LP64 debug64] in Hlock, Hage, Hepoch.
  simpl value. destruct (Z.eq_dec i 7) as [-> | Hne]; [reflexivity |].
  apply Z.bits_above_log2; [lia |]. change (Z.log2 541) with 9. lia.
Qed.

Lemma anonymous_bias_null_locker_witness :
  is_biased_anonymously (Mark 541) = Ret true /\
  biased_locker (Mark 541) = Ret NULL.
Proof.
  apply (anonymous_bias_null_locker (Mark 541));
    [reflexivity | exact thread_field_zero_541].
Defined.

(** C2 as stated fails on the prototype of a biased header: it has the bias
    pattern and no thread, and in a debug build [biased_locker] returns the
    null pointer from it, with no failed assertion. *)
Lemma anonymous_bias_locker_no_fault :
  has_bias_pattern biased_locking_prototype = true /\
  Z.shiftr (value biased_locking_prototype) (age_shift + age_bits) = 0 /\
  ASSERT = true /\
  is_biased_anonymously biased_locking_prototype = Ret true /\
  biased_locker biased_locking_prototype = Ret NULL /\
  (forall msg : string, biased_locker biased_locking_prototype <> Fatal msg).
Proof.
  repeat split; try reflexivity. intros msg. vm_compute. discriminate.
Qed.

Lemma is_unlocked_is_neutral_witness :
  is_biased_anonymously biased_locking_prototype = Ret true /\
  is_unlocked biased_locking_prototype = false /\
  is_neutral biased_locking_prototype = false.
Proof.
  split; [reflexivity |].
  apply (is_unlocked_is_neutral biased_locking_prototype). reflexivity.
Defined.

Lemma encode_monitor_round_trip_witness :
  value (encode_ObjectMonitor 32516) = Z.lxor 32516 monitor_value /\
  has_monitor (encode_ObjectMonitor 32516) = true /\
  monitor (encode_ObjectMonitor 32516) = Ret 32516.
Proof. apply (encode_monitor_round_trip 32516). reflexivity. Defined.

Lemma set_age_frame_witness :
  exists h' : markWord,
    set_age (Mark 541) 9 = Ret h' /\
    age h' = 9 /\
    (forall i : Z, 0 <= i -> ~ in_field age_shift age_bits i ->
       Z.testbit (value h') i = Z.testbit (value (Mark 541)) i) /\
    Z.land (value h') biased_lock_mask_in_place =
      Z.land (value (Mark 541)) biased_lock_mask_in_place /\
    shr (value h') unused_gap_shift = shr (value (Mark 541)) unused_gap_shift /\
    hash h' = hash (Mark 541).
Proof. apply (set_age_frame (Mark 541) 9); [in_uintptr_t | lia]. Defined.

Lemma copy_set_hash_frame_witness :
  hash (copy_set_hash prototype 305419896) =
    Z.land (to_uintptr 305419896) hash_mask /\
  hash (copy_set_hash prototype 305419896) = 305419896 mod 2 ^ hash_bits /\
  (forall i : Z, 0 <= i -> ~ in_field hash_shift hash_bits i ->
     Z.testbit (value (copy_set_hash prototype 305419896)) i =
     Z.testbit (value prototype) i) /\
  Z.land (value (copy_set_hash prototype 305419896)) biased_lock_mask_in_place =
    Z.land (value prototype) biased_lock_mask_in_place /\
  age (copy_set_hash prototype 305419896) = age prototype.
Proof. apply (copy_set_hash_frame prototype 305419896). in_uintptr_t. Defined.

End OnDebug64.

End MarkWordFacts.

(** ** BasicLock::move_to *)

Module BasicLockFacts.

Import MarkWord BasicLock.

Section Facts.

Context {P : Platform} {Sync : Type}.

Variable inflate : Z -> gmap Z markWord -> Sync -> Sync.

Lemma neutral_not_zero_nor_monitor (h : markWord) :
  value h = 0 \/ has_monitor h = true -> is_neutral h = false.
Proof.
  intros Hh. destruct (is_neutral h) eqn:Hn; [| reflexivity].
  apply MarkWordFacts.is_neutral_low_bits in Hn.
  destruct Hh as [H0 | Hm].
  - rewrite H0 in Hn. discriminate.
  - rewrite MarkWordFacts.has_monitor_bit in Hm.
    rewrite <- (Z.mod_pow2_bits_low (value h) 3 1), Hn in Hm by lia.
    discriminate.
Qed.

(** C4.  [move_to] calls the inflation of the lock if and only if the
    displaced header of the record is neutral; in every case it ends by
    storing the displaced header of the source record in the destination
    record, so that the two records hold equal contents afterwards; a
    displaced header that is zero (a recursive lock) or that denotes a
    monitor is not neutral, and is copied with no inflation. *)
Theorem move_to_relocates (w : World Sync) (this obj dest : Z)
    (h d : markWord) :
  records w !! this = Some h -> records w !! dest = Some d ->
  exists w' : World Sync,
    move_to inflate this obj dest w = Some (tt, w') /\
    inflations w' = inflations w ++ (if is_neutral h then [obj] else []) /\
    records w' = <[dest := h]> (records w) /\
    records w' !! dest = Some h /\
    records w' !! this = Some h /\
    (is_neutral h = true -> sync w' = inflate obj (records w) (sync w)) /\
    (is_neutral h = false -> sync w' = sync w) /\
    (value h = 0 \/ has_monitor h = true ->
     is_neutral h = false /\ inflations w' = inflations w /\ sync w' = sync w).
Proof.
  intros Hthis Hdest.
  assert (Hrun : exists w' : World Sync,
             move_to inflate this obj dest w = Some (tt, w') /\
             records w' = <[dest := h]> (records w) /\
             inflations w' = inflations w ++ (if is_neutral h then [obj] else []) /\
             sync w' = if is_neutral h then inflate obj (records w) (sync w)
                       else sync w).
  { unfold move_to, bindM, displaced_header. rewrite Hthis.
    destruct (is_neutral h); simpl; rewrite Hthis;
      unfold set_displaced_header; simpl; rewrite Hdest;
      eexists; (split; [reflexivity |]); simpl; repeat split.
    symmetry. apply app_nil_r. }
  destruct Hrun as (w' & Hw' & Hrec & Hinf & Hsync).
  exists w'. split; [exact Hw' |]. split; [exact Hinf |].
  split; [exact Hrec |]. rewrite Hrec.
  split; [apply lookup_insert_eq |]. split.
  { rewrite lookup_insert. destruct (decide (dest = this)); [reflexivity | exact Hthis]. }
  split; [intros Hn; now rewrite Hn in Hsync |].
  split; [intros Hn; now rewrite Hn in Hsync |].
  intros Hh. pose proof (neutral_not_zero_nor_monitor h Hh) as Hn.
  rewrite Hn in Hinf, Hsync. rewrite app_nil_r in Hinf. auto.
Qed.

End Facts.

Section OnDebug64.

#[local] Existing Instance debug64.

Lemma move_to_relocates_witness :
  exists w' : World (gmap Z markWord),
    move_to install_monitor 16 100 32 two_records = Some (tt, w') /\
    inflations w' = [100] /\
    records w' !! 32 = Some prototype /\
    records w' !! 16 = Some prototype /\
    sync w' !! 100 = Some (encode_ObjectMonitor 4096).
Proof.
  destruct (move_to_relocates install_monitor two_records 16 100 32
              prototype zero eq_refl eq_refl)
    as (w' & Hrun & Hinf & _ & Hdest & Hthis & Hsync & _).
  exists w'. repeat split; try assumption.
  rewrite Hsync by reflexivity. reflexivity.
Defined.

End OnDebug64.

End BasicLockFacts.

(** ** Further properties of markWord *)

Module MarkWordLaws.

Import MarkWord DisplacedMark.

Section Laws.

Context {P : Platform}.

(** The byte order of the machine, for the routines that go to memory. *)
Variable big_endian : bool.

Ltac fields :=
  unfold mask_bits, unot, shl, shr, to_uintptr, to_uint, uint_shl,
    epoch_shift, age_shift, age_bits, lock_bits, biased_lock_bits,
    epoch_bits, lock_shift, unused_gap_shift, uintptr_t, in_field in *.

Ltac ones :=
  rewrite ?MarkWordFacts.lock_mask_in_place_ones,
    ?MarkWordFacts.biased_lock_mask_in_place_ones,
    ?MarkWordFacts.age_mask_in_place_ones, ?MarkWordFacts.age_mask_ones,
    ?MarkWordFacts.epoch_mask_in_place_ones, ?MarkWordFacts.epoch_mask_ones,
    ?MarkWordFacts.hash_mask_in_place_ones, ?MarkWordFacts.hash_mask_ones,
    ?MarkWordFacts.unlocked_value_ones, ?MarkWordFacts.monitor_value_ones,
    ?MarkWordFacts.marked_value_ones,
    ?MarkWordFacts.biased_lock_pattern_ones in *.

Ltac platform :=
  let Hw := fresh "Hw" in
  let Hs := fresh "Hs" in
  let Hb := fresh "Hb" in
  destruct MarkWordFacts.platform_cases as [(Hw & Hs & Hb) | (Hw & Hs & Hb)];
  rewrite ?Hw, ?Hs, ?Hb in *.

Ltac low v n := rewrite <- (Z.mod_small v (2 ^ n)) by lia.

Ltac clear_negative :=
  repeat match goal with
         | |- context [Z.testbit ?x ?j] =>
             rewrite (Z.testbit_neg_r x j) by lia
         end;
  rewrite ?Z.testbit_mod_pow2 by lia;
  repeat match goal with
         | |- context [?a <? ?b] => destruct (Z.ltb_spec a b); try lia
         end;
  try btauto.

(** The word [v] is known to be a [uintptr_t]: read it modulo the word
    size, on either platform, and compare bit by bit. *)
Ltac blast_word Hv v :=
  revert Hv; fields; ones; platform; intros Hv;
  [low v 64 | low v 32]; Z.bitblast; clear_negative.

Ltac blast := fields; ones; platform; Z.bitblast; clear_negative.

Lemma has_locker_low_bits (h : markWord) :
  has_locker h = true <-> value h mod 2 ^ 2 = 0.
Proof.
  unfold has_locker, locked_value.
  rewrite Z.eqb_eq, MarkWordFacts.lock_mask_in_place_ones, Z.land_ones by lia.
  reflexivity.
Qed.

Lemma is_marked_low_bits (h : markWord) :
  is_marked h = true <-> value h mod 2 ^ 2 = 3.
Proof.
  unfold is_marked, mask_bits, marked_value.
  rewrite Z.eqb_eq, MarkWordFacts.lock_mask_in_place_ones, Z.land_ones by lia.
  reflexivity.
Qed.

Lemma bit0_low2 (v : Z) : Z.testbit v 0 = Z.odd (v mod 2 ^ 2).
Proof. rewrite <- Z.bit0_odd. symmetry. apply Z.mod_pow2_bits_low. lia. Qed.

Lemma bit1_low2 (v : Z) : Z.testbit v 1 = Z.testbit (v mod 2 ^ 2) 1.
Proof. symmetry. apply Z.mod_pow2_bits_low. lia. Qed.

Lemma low2_of_low3 (v : Z) : v mod 2 ^ 2 = (v mod 2 ^ 3) mod 2 ^ 2.
Proof.
  symmetry. apply Z.mod_mod_divide. exists 2. reflexivity.
Qed.

Lemma has_displaced_mark_helper_bit (h : markWord) :
  has_displaced_mark_helper h = negb (Z.testbit (value h) 0).
Proof.
  unfold has_displaced_mark_helper. rewrite MarkWordFacts.unlocked_value_ones.
  rewrite Z.land_ones by lia. change (2 ^ 1) with 2.
  rewrite Zmod_odd, Z.bit0_odd. destruct (Z.odd (value h)); reflexivity.
Qed.

(** X1.  The lock tag decides the state predicates: a word is locked
    exactly when it has a locker or a monitor, never both; a marked word is
    locked; a word with the bias pattern or a neutral word is not locked;
    and a displaced mark is to be had from the words whose low bit is
    clear, those with a locker and those with a monitor that are not
    marked. *)
Theorem lock_tag_predicates (h : markWord) :
  is_locked h = has_locker h || has_monitor h /\
  has_locker h && has_monitor h = false /\
  (is_marked h = true -> is_locked h = true /\ has_monitor h = true) /\
  (has_bias_pattern h = true -> is_locked h = false /\ is_neutral h = false) /\
  (is_neutral h = true -> is_locked h = false) /\
  has_displaced_mark_helper h =
    has_locker h || (has_monitor h && negb (is_marked h)).
Proof.
  rewrite MarkWordFacts.has_monitor_bit, has_displaced_mark_helper_bit.
  rewrite bit1_low2, bit0_low2.
  unfold is_locked, has_locker, is_marked, has_bias_pattern, is_neutral,
    mask_bits.
  rewrite MarkWordFacts.lock_mask_in_place_ones,
    MarkWordFacts.biased_lock_mask_in_place_ones, !Z.land_ones by lia.
  rewrite (low2_of_low3 (value h)).
  pose proof (Z.mod_pos_bound (value h) (2 ^ 3) ltac:(lia)) as Hr.
  assert (Hc : value h mod 2 ^ 3 = 0 \/ value h mod 2 ^ 3 = 1 \/
               value h mod 2 ^ 3 = 2 \/ value h mod 2 ^ 3 = 3 \/
               value h mod 2 ^ 3 = 4 \/ value h mod 2 ^ 3 = 5 \/
               value h mod 2 ^ 3 = 6 \/ value h mod 2 ^ 3 = 7) by lia.
  destruct Hc as [E | [E | [E | [E | [E | [E | [E | E]]]]]]];
    rewrite E; repeat split; intros; try discriminate; repeat split;
    reflexivity.
Qed.

(** *** Range tests written as mask tests *)

(** [x & ~right_n_bits(n)] is zero exactly when [x] is below [2^n]. *)
Lemma mask_test_range (x n : Z) :
  uintptr_t x -> 0 <= n ->
  (Z.land x (unot (Z.ones n)) =? 0) = (x <? 2 ^ n).
Proof.
  intros Hx Hn.
  assert (Hd : Z.land x (unot (Z.ones n)) = Z.ldiff x (Z.ones n)).
  { revert Hx. fields. platform; intros Hx;
      [low x 64 | low x 32]; Z.bitblast; clear_negative. }
  rewrite Hd, Z.ldiff_ones_r, Z.shiftl_mul_pow2, Z.shiftr_div_pow2 by exact Hn.
  assert (Hp : 0 < 2 ^ n) by (apply Z.pow_pos_nonneg; lia).
  assert (H0 : 0 <= x) by (unfold uintptr_t in Hx; lia).
  destruct (Z.ltb_spec x (2 ^ n)) as [Hlt | Hge].
  - rewrite Z.div_small by lia. reflexivity.
  - apply Z.eqb_neq. intros Hz.
    assert (Hq : x / 2 ^ n = 0) by nia.
    apply Z.div_small_iff in Hq; lia.
Qed.

Lemma to_uintptr_of_int (e : Z) :
  int_t e -> uintptr_t (to_uintptr e) /\
             (0 <= e -> to_uintptr e = e) /\
             (e < 0 -> 2 ^ 31 <= to_uintptr e).
Proof.
  unfold int_t, uintptr_t, to_uintptr. intros He.
  platform.
  - split; [apply Z.mod_pos_bound; lia |]. split; intros Hsg.
    + apply Z.mod_small. lia.
    + replace e with (e + 2 ^ 64 - 1 * 2 ^ 64) by lia.
      rewrite Zminus_mod, Z_mod_mult, Z.sub_0_r, Z.mod_mod by lia.
      rewrite Z.mod_small; lia.
  - split; [apply Z.mod_pos_bound; lia |]. split; intros Hsg.
    + apply Z.mod_small. lia.
    + replace e with (e + 2 ^ 32 - 1 * 2 ^ 32) by lia.
      rewrite Zminus_mod, Z_mod_mult, Z.sub_0_r, Z.mod_mod by lia.
      rewrite Z.mod_small; lia.
Qed.

Lemma epoch_test_range (e : Z) :
  int_t e ->
  (Z.land (to_uintptr e) (unot epoch_mask) =? 0) = (0 <=? e) && (e <=? 3).
Proof.
  intros He. destruct (to_uintptr_of_int e He) as (Hu & Hpos & Hneg).
  rewrite MarkWordFacts.epoch_mask_ones, mask_test_range by (exact Hu || lia).
  destruct (Z.leb_spec 0 e) as [H0 | H0]; simpl.
  - rewrite Hpos by exact H0.
    destruct (Z.ltb_spec e (2 ^ 2)), (Z.leb_spec e 3); reflexivity || lia.
  - specialize (Hneg H0). apply Z.ltb_ge. lia.
Qed.

Lemma age_test_range (v : Z) :
  uint_t v -> (Z.land v (unot age_mask) =? 0) = (v <=? 15).
Proof.
  intros Hv. rewrite MarkWordFacts.age_mask_ones, mask_test_range.
  - destruct (Z.ltb_spec v (2 ^ 4)), (Z.leb_spec v 15); reflexivity || lia.
  - unfold uint_t in Hv. unfold uintptr_t. platform; lia.
  - lia.
Qed.

Lemma vmassert_debug (c : bool) (msg : string) :
  ASSERT = true -> vmassert c msg = if c then Ret tt else Fatal msg.
Proof. intros Ha. unfold vmassert. rewrite Ha. now destruct c. Qed.

Lemma vmassert_product (c : bool) (msg : string) :
  ASSERT = false -> vmassert c msg = Ret tt.
Proof. intros Ha. unfold vmassert. now rewrite Ha. Qed.

(** *** Age *)

(** X2.  What [set_age] does with an age that does not fit the field: a
    debug build accepts exactly the ages up to 15 and fails the assertion
    on every other; a product build stores the four low bits of the age. *)
Theorem set_age_overflow (h : markWord) (v : Z) :
  uint_t v ->
  (ASSERT = true ->
   ((exists h' : markWord, set_age h v = Ret h') <-> v <= 15) /\
   (15 < v -> set_age h v = Fatal "shouldn't overflow age field")) /\
  (ASSERT = false ->
   exists h' : markWord, set_age h v = Ret h' /\ age h' = v mod 2 ^ age_bits).
Proof.
  intros Hv. split; intros Ha.
  - unfold set_age. rewrite (vmassert_debug _ _ Ha), age_test_range by exact Hv.
    destruct (Z.leb_spec v 15) as [Hle | Hgt]; simpl; split.
    + split; [lia | intros _; eexists; reflexivity].
    + lia.
    + split; [intros (h' & Hh'); discriminate | lia].
    + reflexivity.
  - unfold set_age. rewrite (vmassert_product _ _ Ha). simpl.
    eexists. split; [reflexivity |].
    unfold age. simpl value. unfold age_bits.
    rewrite <- (Z.land_ones v 4) by lia. blast.
Qed.

(** *** The bias epoch *)

Lemma set_bias_epoch_passes (h : markWord) (e : Z) :
  has_bias_pattern h = true -> 0 <= e <= 3 ->
  set_bias_epoch h e =
  Ret (Mark (Z.lor (mask_bits (value h) (unot epoch_mask_in_place))
               (Z.shiftl e hash_shift))).
Proof.
  intros Hb He. unfold set_bias_epoch.
  rewrite Hb, epoch_test_range by (unfold int_t; lia).
  replace (0 <=? e) with true by (symmetry; apply Z.leb_le; lia).
  replace (e <=? 3) with true by (symmetry; apply Z.leb_le; lia).
  simpl andb. rewrite !MarkWordFacts.vmassert_true. simpl bind.
  now rewrite MarkWordFacts.shifted_epoch.
Qed.

Lemma bias_epoch_passes (h : markWord) :
  has_bias_pattern h = true ->
  bias_epoch h =
  Ret (shr (mask_bits (value h) epoch_mask_in_place) epoch_shift) /\
  0 <= shr (mask_bits (value h) epoch_mask_in_place) epoch_shift <= 3.
Proof.
  intros Hb.
  assert (Hr : 0 <= shr (mask_bits (value h) epoch_mask_in_place) epoch_shift
               <= 3).
  { assert (He : shr (mask_bits (value h) epoch_mask_in_place) epoch_shift =
                 shr (value h) epoch_shift mod 2 ^ 2).
    { rewrite <- Z.land_ones by lia. blast. }
    rewrite He.
    pose proof (Z.mod_pos_bound (shr (value h) epoch_shift) (2 ^ 2) ltac:(lia)).
    lia. }
  split; [| exact Hr].
  unfold bias_epoch. rewrite Hb, MarkWordFacts.vmassert_true. simpl bind.
  f_equal. apply MarkWordFacts.to_int_small. unfold int_t. lia.
Qed.

(** What [set_bias_epoch] leaves alone and what it writes. *)
Lemma set_bias_epoch_bits (h : markWord) (e : Z) :
  uintptr_t (value h) -> 0 <= e <= 3 ->
  let v' := Z.lor (mask_bits (value h) (unot epoch_mask_in_place))
              (Z.shiftl e hash_shift) in
  (forall i : Z, 0 <= i -> ~ in_field epoch_shift epoch_bits i ->
     Z.testbit v' i = Z.testbit (value h) i) /\
  shr (mask_bits v' epoch_mask_in_place) epoch_shift = e.
Proof.
  intros Hh He v'. subst v'. split.
  - intros i Hi Hout. revert Hh Hout. low e 2.
    fields; ones; platform; intros Hh Hout.
    + low (value h) 64. Z.bitblast_core; clear_negative.
    + low (value h) 32. Z.bitblast_core; clear_negative.
  - low e 2. blast.
Qed.

(** Two words that agree outside the epoch field have the same lock and
    bias bits, the same age and the same thread field. *)
Lemma outside_epoch (v v' : Z) :
  (forall i : Z, 0 <= i -> ~ in_field epoch_shift epoch_bits i ->
     Z.testbit v' i = Z.testbit v i) ->
  has_bias_pattern (Mark v') = has_bias_pattern (Mark v) /\
  age (Mark v') = age (Mark v) /\
  mask_bits v'
    (unot (Z.lor (Z.lor biased_lock_mask_in_place age_mask_in_place)
             epoch_mask_in_place)) =
  mask_bits v
    (unot (Z.lor (Z.lor biased_lock_mask_in_place age_mask_in_place)
             epoch_mask_in_place)).
Proof.
  intros Hsame.
  assert (Hlow : Z.land v' (Z.ones 7) = Z.land v (Z.ones 7)).
  { apply Z.bits_inj'. intros i Hi. rewrite !Z.land_spec.
    destruct (Z.ltb_spec i 7) as [Hlt | Hge].
    - rewrite Hsame; [reflexivity | exact Hi |]. fields. platform; lia.
    - rewrite Z.testbit_ones_nonneg by lia.
      replace (i <? 7) with false by (symmetry; apply Z.ltb_ge; lia).
      now rewrite !andb_false_r. }
  split; [| split].
  - unfold has_bias_pattern, mask_bits. simpl value.
    rewrite MarkWordFacts.biased_lock_mask_in_place_ones. f_equal.
    replace (Z.ones 3) with (Z.land (Z.ones 7) (Z.ones 3)) by reflexivity.
    now rewrite !Z.land_assoc, Hlow.
  - unfold age, mask_bits, shr. simpl value. f_equal.
    rewrite MarkWordFacts.age_mask_ones.
    assert (Hs : forall x, Z.land (Z.shiftr x age_shift) (Z.ones 4) =
                           Z.shiftr (Z.land x (Z.ones 7)) age_shift).
    { intros x. fields. Z.bitblast. }
    now rewrite !Hs, Hlow.
  - apply Z.bits_inj'. intros i Hi. unfold mask_bits. rewrite !Z.land_spec.
    destruct (Z.testbit
                (unot (Z.lor (Z.lor biased_lock_mask_in_place age_mask_in_place)
                         epoch_mask_in_place)) i) eqn:Hm;
      [| now rewrite !andb_false_r].
    rewrite !andb_true_r. apply Hsame; [exact Hi |].
    intros Hin. revert Hm Hin. fields; ones. platform; intros Hm Hin.
    + rewrite Z.testbit_mod_pow2, Z.lnot_spec, !Z.lor_spec, !Z.shiftl_spec,
        !Z.testbit_ones in Hm by lia.
      replace (0 <=? i - 8) with true in Hm by (symmetry; apply Z.leb_le; lia).
      replace (i - 8 <? 2) with true in Hm by (symmetry; apply Z.ltb_lt; lia).
      simpl in Hm. rewrite orb_true_r in Hm. simpl in Hm.
      rewrite andb_false_r in Hm. discriminate.
    + rewrite Z.testbit_mod_pow2, Z.lnot_spec, !Z.lor_spec, !Z.shiftl_spec,
        !Z.testbit_ones in Hm by lia.
      replace (0 <=? i - 7) with true in Hm by (symmetry; apply Z.leb_le; lia).
      replace (i - 7 <? 2) with true in Hm by (symmetry; apply Z.ltb_lt; lia).
      simpl in Hm. rewrite orb_true_r in Hm. simpl in Hm.
      rewrite andb_false_r in Hm. discriminate.
Qed.

(** X3.  On a biased header and for an epoch from 0 to 3, [set_bias_epoch]
    passes its assertions; the result is still biased, [bias_epoch] reads
    the new epoch back, and no bit outside the epoch field has changed, so
    the biased thread and the age are the same. *)
Theorem set_bias_epoch_round_trip (h : markWord) (e : Z) :
  uintptr_t (value h) -> has_bias_pattern h = true -> 0 <= e <= 3 ->
  exists h' : markWord,
    set_bias_epoch h e = Ret h' /\
    has_bias_pattern h' = true /\
    bias_epoch h' = Ret e /\
    (forall i : Z, 0 <= i -> ~ in_field epoch_shift epoch_bits i ->
       Z.testbit (value h') i = Z.testbit (value h) i) /\
    biased_locker h' = biased_locker h /\
    age h' = age h.
Proof.
  intros Hh Hb He.
  rewrite (set_bias_epoch_passes h e Hb He).
  destruct (set_bias_epoch_bits h e Hh He) as (Hsame & Hread).
  destruct (outside_epoch _ _ Hsame) as (Hpat & Hage & Hthr).
  rewrite (MarkWordFacts.markWord_eta h) in Hpat, Hage.
  eexists. split; [reflexivity |].
  assert (Hb' : has_bias_pattern
                  (Mark (Z.lor (mask_bits (value h) (unot epoch_mask_in_place))
                           (Z.shiftl e hash_shift))) = true)
    by (now rewrite Hpat).
  split; [exact Hb' |]. split.
  { destruct (bias_epoch_passes _ Hb') as (-> & _). simpl value.
    now rewrite Hread. }
  split; [exact Hsame |]. split; [| exact Hage].
  rewrite !MarkWordFacts.biased_locker_passes by assumption.
  simpl value. now rewrite Hthr.
Qed.

(** X4.  [incr_bias_epoch] never fails on a biased header: it advances the
    epoch by one modulo 4, the size of the epoch field, and keeps the bias
    pattern, the biased thread and the age. *)
Theorem incr_bias_epoch_wraps (h : markWord) :
  uintptr_t (value h) -> has_bias_pattern h = true ->
  exists (e : Z) (h' : markWord),
    bias_epoch h = Ret e /\ 0 <= e <= 3 /\
    incr_bias_epoch h = Ret h' /\
    bias_epoch h' = Ret ((e + 1) mod 2 ^ epoch_bits) /\
    has_bias_pattern h' = true /\
    biased_locker h' = biased_locker h /\
    age h' = age h.
Proof.
  intros Hh Hb.
  destruct (bias_epoch_passes h Hb) as (Hread & Hr).
  remember (shr (mask_bits (value h) epoch_mask_in_place) epoch_shift) as e
    eqn:Ee.
  assert (Hnext : to_int (Z.land (to_uintptr (to_int (1 + e))) epoch_mask) =
                  (e + 1) mod 2 ^ epoch_bits).
  { rewrite (MarkWordFacts.to_int_small (1 + e)) by (unfold int_t; lia).
    assert (Hi : int_t (1 + e)) by (unfold int_t; lia).
    destruct (to_uintptr_of_int (1 + e) Hi) as (_ & Hid & _).
    rewrite Hid by lia.
    rewrite MarkWordFacts.epoch_mask_ones, Z.land_ones by lia.
    unfold epoch_bits. rewrite Z.add_comm.
    pose proof (Z.mod_pos_bound (e + 1) (2 ^ 2) ltac:(lia)).
    apply MarkWordFacts.to_int_small. unfold int_t. lia. }
  assert (He' : 0 <= (e + 1) mod 2 ^ epoch_bits <= 3).
  { unfold epoch_bits.
    pose proof (Z.mod_pos_bound (e + 1) (2 ^ 2) ltac:(lia)). lia. }
  destruct (set_bias_epoch_bits h _ Hh He') as (Hsame & Hrd).
  destruct (outside_epoch _ _ Hsame) as (Hpat & Hage & Hthr).
  rewrite (MarkWordFacts.markWord_eta h) in Hpat, Hage.
  exists e. eexists. split; [exact Hread |]. split; [exact Hr |].
  split.
  { unfold incr_bias_epoch. rewrite Hread. simpl bind. rewrite Hnext.
    apply set_bias_epoch_passes; assumption. }
  assert (Hb' : has_bias_pattern
                  (Mark (Z.lor (mask_bits (value h) (unot epoch_mask_in_place))
                           (Z.shiftl ((e + 1) mod 2 ^ epoch_bits) hash_shift)))
                = true) by (now rewrite Hpat).
  split.
  { destruct (bias_epoch_passes _ Hb') as (-> & _). simpl value.
    now rewrite Hrd. }
  split; [exact Hb' |]. split; [| exact Hage].
  rewrite !MarkWordFacts.biased_locker_passes by assumption.
  simpl value. now rewrite Hthr.
Qed.

(** X5.  In a debug build [set_bias_epoch] returns a header exactly when
    the header is biased and the epoch is from 0 to 3: its test of the
    epoch against the mask also refuses a negative epoch. *)
Theorem set_bias_epoch_debug_checks (h : markWord) (e : Z) :
  ASSERT = true -> int_t e ->
  ((exists h' : markWord, set_bias_epoch h e = Ret h') <->
   has_bias_pattern h = true /\ 0 <= e <= 3) /\
  (has_bias_pattern h = true -> ~ 0 <= e <= 3 ->
   set_bias_epoch h e = Fatal "epoch overflow").
Proof.
  intros Ha He. unfold set_bias_epoch.
  rewrite !(vmassert_debug _ _ Ha), epoch_test_range by exact He.
  destruct (has_bias_pattern h); simpl.
  - destruct (Z.leb_spec 0 e), (Z.leb_spec e 3); simpl; split;
      try (split; [intros (h' & Hq); discriminate Hq | intros (_ & Hq); lia]);
      try (split; [intros _; split; [reflexivity | lia]
                  | intros _; eexists; reflexivity]);
      intros _ Hq; try reflexivity; lia.
  - split; [| intros Hq; discriminate Hq].
    split; [intros (h' & Hq); discriminate Hq | intros (Hq & _); discriminate Hq].
Qed.

(** *** Pointers in the header *)

Lemma aligned_absorb (p : Z) :
  p mod 2 ^ 2 = 0 -> Z.land p (Z.lnot (Z.ones 2)) = p.
Proof.
  intros Hp. apply MarkWordFacts.land_lnot_absorb.
  now rewrite Z.land_ones by lia.
Qed.

Lemma clear_low_bits (v : Z) :
  uintptr_t v -> Z.land v (unot lock_mask_in_place) = v - v mod 2 ^ 2.
Proof.
  intros Hv.
  assert (Hd : Z.land v (unot lock_mask_in_place) = Z.ldiff v (Z.ones 2)).
  { blast_word Hv v. }
  rewrite Hd, Z.ldiff_ones_r, Z.shiftl_mul_pow2, Z.shiftr_div_pow2 by lia.
  pose proof (Z.div_mod v (2 ^ 2) ltac:(lia)). lia.
Qed.

Lemma marked_not_biased (h : markWord) :
  value h mod 2 ^ 2 = 3 -> has_bias_pattern h = false.
Proof.
  intros Hm. destruct (has_bias_pattern h) eqn:Hb; [| reflexivity].
  apply MarkWordFacts.has_bias_pattern_low_bits in Hb.
  rewrite low2_of_low3, Hb in Hm. discriminate.
Qed.

(** X6.  A pointer whose two low bits are zero survives being stored in a
    mark: [encode_pointer_as_mark] gives a marked word and [decode_pointer]
    gives the pointer back, whether biased locking is enabled or not. *)
Theorem pointer_mark_round_trip (p : Z) :
  uintptr_t p -> p mod 2 ^ lock_bits = 0 ->
  is_marked (encode_pointer_as_mark p) = true /\
  decode_pointer (encode_pointer_as_mark p) = p.
Proof.
  intros Hp Hal. unfold lock_bits in Hal.
  assert (Hlow : value (encode_pointer_as_mark p) mod 2 ^ 2 = 3).
  { unfold encode_pointer_as_mark, set_marked, from_pointer. simpl value.
    rewrite <- Z.land_ones by lia. change 3 with (Z.ones 2). blast. }
  split; [now apply is_marked_low_bits |].
  unfold decode_pointer. rewrite (marked_not_biased _ Hlow), andb_false_r.
  unfold clear_lock_bits, encode_pointer_as_mark, set_marked, from_pointer.
  simpl value. rewrite <- (aligned_absorb p Hal). blast_word Hp p.
Qed.

(** X7.  [decode_pointer] never returns a pointer with a lock bit set:
    its result is a word with the two low bits clear, the null pointer for
    a biased header when biased locking is enabled and the header rounded
    down to a multiple of 4 otherwise. *)
Theorem decode_pointer_clears_tag (m : markWord) :
  uintptr_t (value m) ->
  uintptr_t (decode_pointer m) /\
  decode_pointer m mod 2 ^ lock_bits = 0 /\
  (UseBiasedLocking && has_bias_pattern m = true -> decode_pointer m = NULL) /\
  (UseBiasedLocking && has_bias_pattern m = false ->
   decode_pointer m = value m - value m mod 2 ^ lock_bits).
Proof.
  intros Hm. unfold decode_pointer, clear_lock_bits, lock_bits. simpl value.
  rewrite (clear_low_bits _ Hm).
  pose proof (Z.mod_pos_bound (value m) (2 ^ 2) ltac:(lia)) as Hr.
  pose proof (Z.div_mod (value m) (2 ^ 2) ltac:(lia)) as Hdm.
  assert (Hmult : (value m - value m mod 2 ^ 2) mod 2 ^ 2 = 0).
  { replace (value m - value m mod 2 ^ 2) with (value m / 2 ^ 2 * 2 ^ 2) by lia.
    apply Z_mod_mult. }
  destruct (UseBiasedLocking && has_bias_pattern m); unfold NULL.
  - split; [unfold uintptr_t in *; lia |]. split; [reflexivity |].
    split; [intros _; reflexivity | intros Hq; discriminate Hq].
  - split; [unfold uintptr_t in *; lia |]. split; [exact Hmult |].
    split; [intros Hq; discriminate Hq | intros _; reflexivity].
Qed.

(** X8.  The address of a lock record whose two low bits are zero encodes
    to a header that has a locker, is locked, has no monitor and gives the
    address back; on an address with a low bit set a debug build fails the
    assertion of [locker]. *)
Theorem lock_record_round_trip (p : Z) :
  (p mod 2 ^ lock_bits = 0 ->
   has_locker (encode_BasicLock p) = true /\
   locker (encode_BasicLock p) = Ret p /\
   is_locked (encode_BasicLock p) = true /\
   has_monitor (encode_BasicLock p) = false) /\
  (ASSERT = true -> p mod 2 ^ lock_bits <> 0 ->
   locker (encode_BasicLock p) = Fatal "check").
Proof.
  unfold lock_bits. split.
  - intros Hal.
    assert (Hk : has_locker (encode_BasicLock p) = true)
      by (now apply has_locker_low_bits).
    split; [exact Hk |]. split.
    { unfold locker. now rewrite Hk, MarkWordFacts.vmassert_true. }
    split.
    + unfold is_locked, mask_bits, encode_BasicLock, from_pointer. simpl value.
      rewrite MarkWordFacts.lock_mask_in_place_ones, Z.land_ones, Hal by lia.
      reflexivity.
    + rewrite MarkWordFacts.has_monitor_bit, bit1_low2.
      unfold encode_BasicLock, from_pointer. simpl value. now rewrite Hal.
  - intros Ha Hnz. unfold locker. rewrite (vmassert_debug _ _ Ha).
    destruct (has_locker (encode_BasicLock p)) eqn:Hk; [| reflexivity].
    apply has_locker_low_bits in Hk. contradiction.
Qed.

Lemma markWord_ext (a b : markWord) : value a = value b -> a = b.
Proof. destruct a, b. simpl. now intros ->. Qed.

(** X9.  [set_marked] and [set_unmarked] write the lock tag only: every
    bit from bit 2 up is kept, an unlocked header is restored by
    [set_unmarked] after [set_marked], and a marked one by [set_marked]
    after [set_unmarked]. *)
Theorem mark_unmark_round_trip (h : markWord) :
  uintptr_t (value h) ->
  (forall i : Z, lock_bits <= i ->
     Z.testbit (value (set_marked h)) i = Z.testbit (value h) i /\
     Z.testbit (value (set_unmarked h)) i = Z.testbit (value h) i) /\
  is_locked (set_unmarked h) = false /\
  (value h mod 2 ^ lock_bits = unlocked_value ->
   set_unmarked (set_marked h) = h) /\
  (value h mod 2 ^ lock_bits = marked_value ->
   set_marked (set_unmarked h) = h).
Proof.
  intros Hh. unfold lock_bits, unlocked_value, marked_value.
  split; [| split; [| split]].
  - intros i Hi. unfold set_marked, set_unmarked. simpl value.
    revert Hh. fields; ones; platform; intros Hh;
      [low (value h) 64 | low (value h) 32];
      split; Z.bitblast_core; clear_negative.
  - unfold is_locked, set_unmarked, mask_bits. simpl value.
    apply negb_false_iff, Z.eqb_eq. blast.
  - intros Hlow. apply markWord_ext.
    unfold set_unmarked, set_marked. simpl value.
    rewrite <- Z.land_ones in Hlow by lia.
    assert (Hsplit : value h = Z.lor (Z.ldiff (value h) (Z.ones 2)) (Z.ones 1)).
    { rewrite <- (Z.lor_ldiff_and (value h) (Z.ones 2)) at 1. now rewrite Hlow. }
    rewrite Hsplit at 1 2. clear Hsplit Hlow. blast_word Hh (value h).
  - intros Hlow. apply markWord_ext.
    unfold set_unmarked, set_marked. simpl value.
    rewrite <- Z.land_ones in Hlow by lia.
    assert (Hsplit : value h = Z.lor (Z.ldiff (value h) (Z.ones 2)) (Z.ones 2)).
    { rewrite <- (Z.lor_ldiff_and (value h) (Z.ones 2)) at 1. now rewrite Hlow. }
    rewrite Hsplit at 1 2. clear Hsplit Hlow. blast_word Hh (value h).
Qed.

(** *** Hash and age, composed *)

Lemma hash_copy_set_hash (h : markWord) (x : Z) :
  hash (copy_set_hash h x) = x mod 2 ^ hash_bits.
Proof.
  unfold hash, copy_set_hash. simpl value.
  assert (Hb : 0 <= hash_bits)
    by (destruct MarkWordFacts.platform_cases as [(_ & _ & ->) | (_ & _ & ->)]; lia).
  rewrite <- Z.land_ones by exact Hb. blast.
Qed.

(** X10.  Installing a hash is an overwrite: a second [copy_set_hash]
    replaces the first, installing the hash a header already has changes
    nothing, and the result reports [has_no_hash] exactly when the low
    [hash_bits] bits of the installed value are zero. *)
Theorem copy_set_hash_overwrites (h : markWord) (x y : Z) :
  uintptr_t (value h) ->
  copy_set_hash (copy_set_hash h x) y = copy_set_hash h y /\
  copy_set_hash h (hash h) = h /\
  (has_no_hash (copy_set_hash h x) = true <-> x mod 2 ^ hash_bits = 0).
Proof.
  intros Hh. split; [| split].
  - apply markWord_ext. unfold copy_set_hash. simpl value. blast.
  - apply markWord_ext. unfold copy_set_hash, hash. simpl value.
    blast_word Hh (value h).
  - unfold has_no_hash, no_hash. rewrite hash_copy_set_hash. apply Z.eqb_eq.
Qed.

(** X11.  [set_age] is an overwrite that commutes with [copy_set_hash]:
    for ages from 0 to 15, setting the age a header already has changes
    nothing, a second [set_age] replaces the first, and the age and the
    hash can be installed in either order. *)
Theorem set_age_overwrites (h : markWord) (v w x : Z) :
  uintptr_t (value h) -> 0 <= v <= 15 -> 0 <= w <= 15 ->
  set_age h (age h) = Ret h /\
  (exists h1 : markWord,
     set_age h v = Ret h1 /\
     set_age h1 w = set_age h w /\
     set_age (copy_set_hash h x) v = Ret (copy_set_hash h1 x) /\
     hash h1 = hash h).
Proof.
  intros Hh Hv Hw. split.
  - rewrite MarkWordFacts.set_age_passes by apply MarkWordFacts.age_range.
    f_equal. apply markWord_ext. simpl value. unfold age.
    blast_word Hh (value h).
  - eexists. split; [apply MarkWordFacts.set_age_passes; exact Hv |].
    split; [| split].
    + rewrite !MarkWordFacts.set_age_passes by assumption.
      f_equal. apply markWord_ext. simpl value. low v 4. low w 4. blast.
    + rewrite MarkWordFacts.set_age_passes by assumption.
      f_equal. apply markWord_ext. unfold copy_set_hash. simpl value.
      low v 4. blast.
    + unfold hash. simpl value. low v 4. blast.
Qed.

(** X12.  [incr_age] returns a header in every build, on every header: its
    call of [set_age] never fails the assertion.  The age of the result is
    the smaller of the age plus one and 15, and the bits outside the age
    field, the hash among them, are kept. *)
Theorem incr_age_total (h : markWord) :
  uintptr_t (value h) ->
  exists h' : markWord,
    incr_age h = Ret h' /\
    age h' = Z.min (age h + 1) max_age /\
    (forall i : Z, 0 <= i -> ~ in_field age_shift age_bits i ->
       Z.testbit (value h') i = Z.testbit (value h) i) /\
    hash h' = hash h.
Proof.
  intros Hh. pose proof (MarkWordFacts.age_range h) as Hr.
  unfold incr_age. rewrite MarkWordFacts.max_age_15.
  destruct (Z.eqb_spec (age h) 15) as [He | Hne].
  - exists h. rewrite MarkWordFacts.markWord_eta.
    split; [reflexivity |]. split; [lia |]. split; [reflexivity | reflexivity].
  - rewrite MarkWordFacts.to_uint_small by (unfold uint_t; lia).
    rewrite MarkWordFacts.set_age_passes by lia.
    eexists. split; [reflexivity |]. split; [| split].
    + rewrite (MarkWordFacts.age_set_age h _ (age h + 1)); [lia | lia |].
      now rewrite MarkWordFacts.set_age_passes by lia.
    + intros i Hi Hout. simpl value. revert Hout.
      generalize (age h + 1). intros n Hout. revert Hh Hout.
      fields; ones; platform; intros Hh Hout;
        [low (value h) 64 | low (value h) 32];
        Z.bitblast_core; clear_negative.
    + unfold hash. simpl value. generalize (age h + 1). intros n. blast.
Qed.

(** *** Alignment of thread pointers *)

(** X13.  With biased locking enabled, a thread pointer aligned to
    [biased_lock_alignment] passes the alignment assertion of [encode]: its
    bits under the bias-and-lock, age and epoch masks are zero, and
    [encode] returns a header for every age up to 15 and epoch from 0 to
    3. *)
Theorem aligned_thread_encodes (t a e : Z) :
  UseBiasedLocking = true ->
  uintptr_t t -> t mod biased_lock_alignment = 0 ->
  0 <= a <= 15 -> 0 <= e <= 3 ->
  Z.land t (Z.lor (Z.lor epoch_mask_in_place age_mask_in_place)
              biased_lock_mask_in_place) = 0 /\
  exists h : markWord, encode_JavaThread t a e = Ret h.
Proof.
  intros Hu Ht Hal Ha He.
  assert (Hmask : Z.land t (Z.lor (Z.lor epoch_mask_in_place age_mask_in_place)
                              biased_lock_mask_in_place) = 0).
  { assert (Hlow : exists n : Z, 10 <= n /\ t mod 2 ^ n = 0).
    { destruct P as [[] ? ?]; [exists 11 | exists 10]; split; try lia;
        exact Hal. }
    destruct Hlow as (n & Hn & Hz).
    assert (Hs : t = Z.shiftl (Z.shiftr t n) n).
    { rewrite <- Z.ldiff_ones_r by lia.
      rewrite <- (Z.lor_ldiff_and t (Z.ones n)) at 1.
      rewrite Z.land_ones, Hz by lia. apply Z.lor_0_r. }
    rewrite Hs. generalize (Z.shiftr t n). intros q. clear Hs Hz Hal Ht.
    fields; ones; platform; Z.bitblast; clear_negative. }
  split; [exact Hmask |].
  rewrite (MarkWordFacts.encode_JavaThread_passes t a e Hu Hmask Ha He).
  eexists. reflexivity.
Qed.

(** *** The busy sentinel *)

(** X14.  No header [encode] makes for a monitor or for a biasing thread is
    the busy word [INFLATING()], and none that [set_marked], [set_unmarked]
    or [set_unlocked] return is; the header made for a lock record is the
    busy word exactly when the address of the record is null. *)
Theorem busy_word_is_no_encoding (p t a e : Z) (h m : markWord) :
  is_being_inflated (encode_ObjectMonitor p) = false /\
  (encode_JavaThread t a e = Ret m -> is_being_inflated m = false) /\
  is_being_inflated (set_marked h) = false /\
  is_being_inflated (set_unmarked h) = false /\
  is_being_inflated (set_unlocked h) = false /\
  (is_being_inflated (encode_BasicLock p) = true <-> p = NULL).
Proof.
  assert (Hbit : forall (v : Z) (i : Z),
            Z.testbit v i = true -> (v =? 0) = false).
  { intros v i Hv. apply Z.eqb_neq. intros ->.
    rewrite Z.bits_0 in Hv. discriminate. }
  unfold is_being_inflated. split; [| split; [| split; [| split; [| split]]]].
  - apply (Hbit _ 1). unfold encode_ObjectMonitor. simpl value.
    rewrite Z.lor_spec. apply orb_true_r.
  - unfold encode_JavaThread.
    destruct (vmassert _ _); [| discriminate]. simpl bind.
    destruct (vmassert _ _); [| discriminate]. simpl bind.
    destruct (vmassert _ _); [| discriminate]. simpl bind.
    intros [= <-]. apply (Hbit _ 0). simpl value.
    rewrite Z.lor_spec. apply orb_true_r.
  - apply (Hbit _ 0). unfold set_marked. simpl value.
    rewrite Z.lor_spec. apply orb_true_r.
  - apply (Hbit _ 0). unfold set_unmarked. simpl value.
    rewrite Z.lor_spec. apply orb_true_r.
  - apply (Hbit _ 0). unfold set_unlocked. simpl value.
    rewrite Z.lor_spec. apply orb_true_r.
  - unfold encode_BasicLock, from_pointer, NULL. simpl value. apply Z.eqb_eq.
Qed.

(** *** The displaced mark *)

Lemma displaced_mark_address (p : Z) :
  uintptr_t p -> p mod 2 ^ 2 = 0 ->
  Z.land (value (encode_BasicLock p)) (unot monitor_value) = p /\
  Z.land (value (encode_ObjectMonitor p)) (unot monitor_value) = p /\
  has_displaced_mark_helper (encode_BasicLock p) = true /\
  has_displaced_mark_helper (encode_ObjectMonitor p) = true.
Proof.
  intros Hp Hal. pose proof (aligned_absorb p Hal) as Habs.
  unfold encode_BasicLock, encode_ObjectMonitor, from_pointer. simpl value.
  split; [| split; [| split]].
  - rewrite <- Habs. blast_word Hp p.
  - rewrite <- Habs. blast_word Hp p.
  - rewrite has_displaced_mark_helper_bit, bit0_low2. simpl value.
    now rewrite Hal.
  - rewrite has_displaced_mark_helper_bit. simpl value.
    rewrite Z.lor_spec, bit0_low2, Hal. reflexivity.
Qed.

(** Bytes in memory *)

Lemma le_bytes_length (n : nat) (v : Z) : length (le_bytes n v) = n.
Proof.
  revert v. induction n as [| n IH]; intros v; simpl; [reflexivity |].
  now rewrite IH.
Qed.

Lemma le_value_le_bytes (n : nat) (v : Z) :
  le_value (le_bytes n v) = v mod 256 ^ Z.of_nat n.
Proof.
  revert v. induction n as [| n IH]; intros v.
  - simpl. now rewrite Z.mod_1_r.
  - cbn [le_bytes le_value]. rewrite IH, Nat2Z.inj_succ, Z.pow_succ_r by lia.
    assert (Hp : 0 < 256 ^ Z.of_nat n) by (apply Z.pow_pos_nonneg; lia).
    rewrite Z.rem_mul_r by lia. reflexivity.
Qed.

(** A stored word is the word loaded, in either byte order. *)
Lemma word_of_to_bytes (v : Z) :
  uintptr_t v -> word_of_bytes big_endian (word_to_bytes big_endian v) = v.
Proof.
  intros Hv. unfold word_of_bytes, word_to_bytes.
  assert (Hrev : (if big_endian
                  then rev (if big_endian
                            then rev (le_bytes (Z.to_nat BytesPerWord) v)
                            else le_bytes (Z.to_nat BytesPerWord) v)
                  else if big_endian
                       then rev (le_bytes (Z.to_nat BytesPerWord) v)
                       else le_bytes (Z.to_nat BytesPerWord) v) =
                 le_bytes (Z.to_nat BytesPerWord) v).
  { destruct big_endian; [apply rev_involutive | reflexivity]. }
  simpl. rewrite Hrev, le_value_le_bytes.
  unfold uintptr_t in Hv. apply Z.mod_small.
  replace (256 ^ Z.of_nat (Z.to_nat BytesPerWord)) with (2 ^ BitsPerWord);
    [exact Hv |].
  destruct P as [[] ? ?]; reflexivity.
Qed.

Lemma word_to_bytes_length (v : Z) :
  Z.of_nat (length (word_to_bytes big_endian v)) = BytesPerWord.
Proof.
  unfold word_to_bytes. simpl.
  assert (Hl : length (if big_endian
                       then rev (le_bytes (Z.to_nat BytesPerWord) v)
                       else le_bytes (Z.to_nat BytesPerWord) v) =
               Z.to_nat BytesPerWord).
  { destruct big_endian; [rewrite length_rev |]; apply le_bytes_length. }
  rewrite Hl. destruct P as [[] ? ?]; reflexivity.
Qed.

(** Bytes stored over mapped addresses are read back, and no byte outside
    them changes. *)
Lemma write_then_read (bs : list Z) :
  forall (mem : gmap Z Z) (p : Z),
    (forall i : Z, 0 <= i < Z.of_nat (length bs) -> is_Some (mem !! (p + i))) ->
    exists mem' : gmap Z Z,
      write_bytes mem p bs = Some mem' /\
      read_bytes mem' p (length bs) = Some bs /\
      (forall q : Z, ~ p <= q < p + Z.of_nat (length bs) ->
         mem' !! q = mem !! q) /\
      (forall q : Z, is_Some (mem' !! q) <-> is_Some (mem !! q)).
Proof.
  induction bs as [| b bs IH]; intros mem p Hmapped.
  - exists mem. simpl. repeat split; auto.
  - destruct (Hmapped 0 ltac:(simpl length; lia)) as [b0 Hb0].
    rewrite Z.add_0_r in Hb0.
    destruct (IH (<[p := b]> mem) (p + 1)) as (mem' & Hw & Hr & Hframe & Hdom).
    { intros i Hi. rewrite lookup_insert_ne by lia.
      replace (p + 1 + i) with (p + (i + 1)) by lia.
      apply Hmapped. simpl length. lia. }
    exists mem'. cbn [write_bytes read_bytes length]. rewrite Hb0.
    split; [exact Hw |]. split; [| split].
    + rewrite Hframe by lia. rewrite lookup_insert_eq, Hr. reflexivity.
    + intros q Hq. rewrite Hframe by (simpl length in Hq; lia).
      apply lookup_insert_ne. simpl length in Hq. lia.
    + intros q. rewrite Hdom. destruct (decide (q = p)) as [-> | Hne].
      * rewrite lookup_insert_eq, Hb0. split; intros _; eexists; reflexivity.
      * now rewrite lookup_insert_ne by lia.
Qed.

Lemma store_then_load (mem : gmap Z Z) (p v : Z) :
  uintptr_t v ->
  (forall i : Z, 0 <= i < BytesPerWord -> is_Some (mem !! (p + i))) ->
  exists mem' : gmap Z Z,
    store_mark big_endian mem p v = Some mem' /\
    load_mark big_endian mem' p = Some (Mark v) /\
    (forall q : Z, ~ p <= q < p + BytesPerWord -> mem' !! q = mem !! q) /\
    (forall q : Z, is_Some (mem' !! q) <-> is_Some (mem !! q)).
Proof.
  intros Hv Hmapped.
  pose proof (word_to_bytes_length v) as Hlen.
  destruct (write_then_read (word_to_bytes big_endian v) mem p)
    as (mem' & Hw & Hr & Hframe & Hdom).
  { now rewrite Hlen. }
  exists mem'. split; [exact Hw |]. split; [| split].
  - unfold load_mark.
    replace (Z.to_nat BytesPerWord)
      with (length (word_to_bytes big_endian v)) by lia.
    now rewrite Hr, word_of_to_bytes.
  - intros q Hq. apply Hframe. now rewrite Hlen.
  - exact Hdom.
Qed.

(** X15.  A header that encodes the address of a lock record and a header
    that encodes the address of a monitor keep their displaced mark in the
    [BytesPerWord] bytes of memory from that address on: on mapped memory
    [set_displaced_mark_helper] stores the mark there, the same through
    either header, and changes no byte outside these; the mark is then read
    back by [displaced_mark_helper] through both headers.  This holds in
    either byte order, for an address whose two low bits are zero. *)
Theorem displaced_mark_round_trip (mem : gmap Z Z) (p : Z) (m : markWord) :
  uintptr_t p -> p mod 2 ^ lock_bits = 0 -> uintptr_t (value m) ->
  (forall i : Z, 0 <= i < BytesPerWord -> is_Some (mem !! (p + i))) ->
  exists mem' : gmap Z Z,
    set_displaced_mark_helper big_endian mem (encode_BasicLock p) m =
      Ret (Some mem') /\
    set_displaced_mark_helper big_endian mem (encode_ObjectMonitor p) m =
      Ret (Some mem') /\
    displaced_mark_helper big_endian mem' (encode_BasicLock p) =
      Ret (Some m) /\
    displaced_mark_helper big_endian mem' (encode_ObjectMonitor p) =
      Ret (Some m) /\
    displaced_mark_helper big_endian mem (encode_BasicLock p) =
      displaced_mark_helper big_endian mem (encode_ObjectMonitor p) /\
    (forall q : Z, ~ p <= q < p + BytesPerWord -> mem' !! q = mem !! q) /\
    (forall q : Z, is_Some (mem' !! q) <-> is_Some (mem !! q)).
Proof.
  intros Hp Hal Hm Hmapped.
  destruct (displaced_mark_address p Hp Hal) as (Hl & Hmon & Hhl & Hhm).
  destruct (store_then_load mem p (value m) Hm Hmapped)
    as (mem' & Hstore & Hload & Hframe & Hdom).
  exists mem'.
  unfold displaced_mark_helper, set_displaced_mark_helper.
  rewrite Hhl, Hhm, Hl, Hmon, !MarkWordFacts.vmassert_true. simpl bind.
  rewrite Hstore, Hload, MarkWordFacts.markWord_eta.
  repeat split; try assumption; apply Hdom; assumption.
Qed.

(** X16.  A header with the low bit set has no displaced mark: on a
    neutral, a biased or a marked header a debug build fails the assertion
    of [displaced_mark_helper] and of [set_displaced_mark_helper], and
    memory is not read or written. *)
Theorem displaced_mark_needs_lock (mem : gmap Z Z) (h m : markWord) :
  ASSERT = true ->
  is_neutral h = true \/ has_bias_pattern h = true \/ is_marked h = true ->
  has_displaced_mark_helper h = false /\
  displaced_mark_helper big_endian mem h = Fatal "check" /\
  set_displaced_mark_helper big_endian mem h m = Fatal "check".
Proof.
  intros Ha Hh.
  assert (Hd : has_displaced_mark_helper h = false).
  { rewrite has_displaced_mark_helper_bit, bit0_low2, low2_of_low3.
    destruct Hh as [Hn | [Hb | Hm]].
    - apply MarkWordFacts.is_neutral_low_bits in Hn. now rewrite Hn.
    - apply MarkWordFacts.has_bias_pattern_low_bits in Hb. now rewrite Hb.
    - apply is_marked_low_bits in Hm. rewrite <- low2_of_low3, Hm.
      reflexivity. }
  split; [exact Hd |].
  unfold displaced_mark_helper, set_displaced_mark_helper.
  rewrite Hd, (vmassert_debug _ _ Ha). split; reflexivity.
Qed.

End Laws.

(** *** The theorems at concrete words, on a 64-bit debug build *)

Section OnDebug64.

#[local] Existing Instance debug64.

Ltac uintptr_now :=
  unfold uintptr_t; vm_compute; split; [intros Hc; discriminate Hc | reflexivity].

Ltac range_now := unfold uint_t, int_t; lia.

Lemma set_age_overflow_witness :
  set_age (Mark 541) 16 = Fatal "shouldn't overflow age field" /\
  (exists h' : markWord,
     set_age (P := product64) (Mark 541) 21 = Ret h' /\
     age (P := product64) h' = 21 mod 2 ^ 4).
Proof.
  split.
  - apply (set_age_overflow (Mark 541) 16); [range_now | reflexivity | lia].
  - apply (set_age_overflow (P := product64) (Mark 541) 21);
      [range_now | reflexivity].
Defined.

Lemma set_bias_epoch_round_trip_witness :
  exists h' : markWord,
    set_bias_epoch (Mark 4669) 1 = Ret h' /\
    has_bias_pattern h' = true /\
    bias_epoch h' = Ret 1 /\
    (forall i : Z, 0 <= i -> ~ in_field epoch_shift epoch_bits i ->
       Z.testbit (value h') i = Z.testbit (value (Mark 4669)) i) /\
    biased_locker h' = biased_locker (Mark 4669) /\
    age h' = age (Mark 4669).
Proof.
  apply (set_bias_epoch_round_trip (Mark 4669) 1);
    [uintptr_now | reflexivity | lia].
Defined.

Lemma incr_bias_epoch_wraps_witness :
  exists (e : Z) (h' : markWord),
    bias_epoch (Mark 4925) = Ret e /\ 0 <= e <= 3 /\
    incr_bias_epoch (Mark 4925) = Ret h' /\
    bias_epoch h' = Ret ((e + 1) mod 2 ^ epoch_bits) /\
    has_bias_pattern h' = true /\
    biased_locker h' = biased_locker (Mark 4925) /\
    age h' = age (Mark 4925).
Proof.
  apply (incr_bias_epoch_wraps (Mark 4925)); [uintptr_now | reflexivity].
Defined.

Lemma set_bias_epoch_debug_checks_witness :
  set_bias_epoch (Mark 4669) (-1) = Fatal "epoch overflow".
Proof.
  apply (set_bias_epoch_debug_checks (Mark 4669) (-1));
    [reflexivity | range_now | reflexivity | lia].
Defined.

Lemma pointer_mark_round_trip_witness :
  is_marked (encode_pointer_as_mark 32516) = true /\
  decode_pointer (encode_pointer_as_mark 32516) = 32516.
Proof.
  apply (pointer_mark_round_trip 32516); [uintptr_now | reflexivity].
Defined.

Lemma decode_pointer_clears_tag_witness :
  uintptr_t (decode_pointer (Mark 32519)) /\
  decode_pointer (Mark 32519) mod 2 ^ lock_bits = 0 /\
  (UseBiasedLocking && has_bias_pattern (Mark 32519) = true ->
   decode_pointer (Mark 32519) = NULL) /\
  (UseBiasedLocking && has_bias_pattern (Mark 32519) = false ->
   decode_pointer (Mark 32519) =
   value (Mark 32519) - value (Mark 32519) mod 2 ^ lock_bits).
Proof. apply (decode_pointer_clears_tag (Mark 32519)). uintptr_now. Defined.

Lemma mark_unmark_round_trip_witness :
  set_unmarked (set_marked (Mark 541)) = Mark 541.
Proof.
  apply (mark_unmark_round_trip (Mark 541)); [uintptr_now | reflexivity].
Defined.

Lemma copy_set_hash_overwrites_witness :
  copy_set_hash (copy_set_hash (Mark 9) 77) 305419896 =
    copy_set_hash (Mark 9) 305419896 /\
  copy_set_hash (Mark 9) (hash (Mark 9)) = Mark 9 /\
  (has_no_hash (copy_set_hash (Mark 9) 77) = true <-> 77 mod 2 ^ hash_bits = 0).
Proof.
  apply (copy_set_hash_overwrites (Mark 9) 77 305419896). uintptr_now.
Defined.

Lemma set_age_overwrites_witness :
  set_age (Mark 541) (age (Mark 541)) = Ret (Mark 541) /\
  (exists h1 : markWord,
     set_age (Mark 541) 9 = Ret h1 /\
     set_age h1 4 = set_age (Mark 541) 4 /\
     set_age (copy_set_hash (Mark 541) 77) 9 = Ret (copy_set_hash h1 77) /\
     hash h1 = hash (Mark 541)).
Proof.
  apply (set_age_overwrites (Mark 541) 9 4 77); [uintptr_now | lia | lia].
Defined.

Lemma incr_age_total_witness :
  exists h' : markWord,
    incr_age (Mark 541) = Ret h' /\
    age h' = Z.min (age (Mark 541) + 1) max_age /\
    (forall i : Z, 0 <= i -> ~ in_field age_shift age_bits i ->
       Z.testbit (value h') i = Z.testbit (value (Mark 541)) i) /\
    hash h' = hash (Mark 541).
Proof. apply (incr_age_total (Mark 541)). uintptr_now. Defined.

Lemma aligned_thread_encodes_witness :
  Z.land 6144 (Z.lor (Z.lor epoch_mask_in_place age_mask_in_place)
                 biased_lock_mask_in_place) = 0 /\
  exists h : markWord, encode_JavaThread 6144 7 2 = Ret h.
Proof.
  apply (aligned_thread_encodes 6144 7 2);
    [reflexivity | uintptr_now | reflexivity | lia | lia].
Defined.

Lemma zeroed_8_mapped (i : Z) :
  0 <= i < BytesPerWord -> is_Some (zeroed 4096 8 !! (4096 + i)).
Proof.
  intros Hi.
  assert (Hc : i = 0 \/ i = 1 \/ i = 2 \/ i = 3 \/
               i = 4 \/ i = 5 \/ i = 6 \/ i = 7)
    by (change BytesPerWord with 8 in Hi; lia).
  destruct Hc as [-> | [-> | [-> | [-> | [-> | [-> | [-> | ->]]]]]]];
    vm_compute; eexists; reflexivity.
Qed.

Lemma displaced_mark_round_trip_witness :
  exists mem' : gmap Z Z,
    set_displaced_mark_helper false (zeroed 4096 8) (encode_BasicLock 4096)
      (Mark 9) = Ret (Some mem') /\
    displaced_mark_helper true mem' (encode_ObjectMonitor 4096) <>
      Ret (Some (Mark 9)) /\
    displaced_mark_helper false mem' (encode_ObjectMonitor 4096) =
      Ret (Some (Mark 9)).
Proof.
  destruct (displaced_mark_round_trip false (zeroed 4096 8) 4096 (Mark 9))
    as (mem' & Hset & Hset' & _ & Hget & _);
    [uintptr_now | reflexivity | uintptr_now | exact zeroed_8_mapped |].
  exists mem'. split; [exact Hset |]. split; [| exact Hget].
  vm_compute in Hset. injection Hset as <-. vm_compute. discriminate.
Defined.

(** On a 64-bit VM a mark stored at an address that is a multiple of 4 and
    not of 8 runs into the word behind it: with the word 1 at 4096, the
    mark 9 stored at 4100 (low byte first) leaves 0x900000001 at 4096. *)
Example store_into_the_next_word :
  match write_bytes (zeroed 4096 12) 4096 (word_to_bytes false 1) with
  | Some mem =>
      match set_displaced_mark_helper false mem (encode_BasicLock 4100)
              (Mark 9) with
      | Ret (Some mem') =>
          displaced_mark_helper false mem' (encode_BasicLock 4096)
      | _ => Ret None
      end
  | None => Ret None
  end = Ret (Some (Mark 38654705665)).
Proof. vm_compute. reflexivity. Qed.

Lemma displaced_mark_needs_lock_witness :
  has_displaced_mark_helper prototype = false /\
  displaced_mark_helper false ∅ prototype = Fatal "check" /\
  set_displaced_mark_helper false ∅ prototype zero = Fatal "check".
Proof.
  apply (displaced_mark_needs_lock false ∅ prototype zero);
    [reflexivity | left; reflexivity].
Defined.

End OnDebug64.

End MarkWordLaws.
